(** * memalloc: a first-fit [sbrk] allocator

    Shallow embedding of [memalloc.c] ([malloc], [free], [calloc],
    [realloc] over a singly linked registry of block headers) and the
    properties of its specification.

    Conventions of the embedding.
    - The target is LP64: [size_t] and pointers are 64 bits wide.  A
      [size_t] value is a [Z] in [0, 2^64); unsigned arithmetic wraps
      ([wrap]); the conversion to the signed argument of [sbrk] is
      [to_intptr].
    - A pointer is its address, a [Z]; [NULL] is [0].  Stepping over a
      header is plain addition; the sum of a pointer and a [size_t] in
      [free] wraps as the machine computes it.
    - Memory is typed: header objects live in [hdrs], keyed by their
      address, and payload bytes live in [bytes].  Dereferencing a
      pointer at which there is no header object has no defined result:
      the operation yields [None].  Accesses are not checked against the
      program break: a theorem that says what a call reads or writes in
      the payload assumes a well-formed heap and a request that, with its
      header, is a positive [intptr_t], where every access lies between
      the start of the heap and the break.
    - The loops follow [next] links; they run on fuel bounded by the
      number of header objects, so a walk that never reaches [NULL]
      yields [None] too.
    - The mutex calls are not modelled: the operations are sequential. *)

From stdpp Require Import gmap list sorting.
From Stdlib Require Import ZArith Lia.

Local Open Scope Z_scope.

(** ** Machine integers *)

Definition SIZE_MAX : Z := 2 ^ 64 - 1.

(** Unsigned [size_t] arithmetic is modulo [2^64]. *)
Definition wrap (x : Z) : Z := x mod 2 ^ 64.

(** [size_t] to [intptr_t], as a call [sbrk(x)] converts its argument. *)
Definition to_intptr (x : Z) : Z := if x <? 2 ^ 63 then x else x - 2 ^ 64.

Definition NULL : Z := 0.

(** ** Data model *)

(** [union header]: the struct [s] of the union. *)
Record header := Header {
  s_size : Z;      (* payload size, without the header *)
  s_is_free : Z;   (* unsigned: 1 = free, 0 = in use *)
  s_next : Z       (* next block of the list *)
}.

(** [sizeof(header_t)]: 8 + 4 (+ 4 padding) + 8 bytes; the [char[16]]
    member is smaller and has alignment 1. *)
Definition sizeof_header : Z := 24.

Record state := State {
  head : Z;                (* header_t *head *)
  tail : Z;                (* header_t *tail *)
  hdrs : gmap Z header;    (* the header objects in memory *)
  bytes : gmap Z Z;        (* the payload bytes in memory *)
  brk : Z;                 (* the program break *)
  heap_lo : Z;             (* where the data segment starts *)
  heap_hi : Z              (* the highest break the system grants *)
}.

Definition set_head (v : Z) (s : state) : state :=
  State v (tail s) (hdrs s) (bytes s) (brk s) (heap_lo s) (heap_hi s).
Definition set_tail (v : Z) (s : state) : state :=
  State (head s) v (hdrs s) (bytes s) (brk s) (heap_lo s) (heap_hi s).
Definition set_hdrs (m : gmap Z header) (s : state) : state :=
  State (head s) (tail s) m (bytes s) (brk s) (heap_lo s) (heap_hi s).
Definition set_bytes (m : gmap Z Z) (s : state) : state :=
  State (head s) (tail s) (hdrs s) m (brk s) (heap_lo s) (heap_hi s).
Definition set_brk (v : Z) (s : state) : state :=
  State (head s) (tail s) (hdrs s) (bytes s) v (heap_lo s) (heap_hi s).

(** The state at process start: an empty registry, the break at the start
    of the data segment. *)
Definition init_state (lo hi : Z) : state := State NULL NULL ∅ ∅ lo lo hi.

(** ** A state monad with undefined behaviour *)

Definition M (A : Type) : Type := state → option (A * state).

Definition ret {A} (a : A) : M A := λ s, Some (a, s).
Definition bind {A B} (m : M A) (k : A → M B) : M B :=
  λ s, match m s with
       | Some (a, s') => k a s'
       | None => None
       end.
Definition get : M state := λ s, Some (s, s).
Definition modify (f : state → state) : M unit := λ s, Some (tt, f s).
Definition lift {A} (o : option A) : M A :=
  λ s, match o with Some a => Some (a, s) | None => None end.

Notation "x <- m ;; k" := (bind m (λ x, k))
  (at level 100, m at next level, right associativity).
Notation "m ;;; k" := (bind m (λ _, k))
  (at level 100, right associativity).

(** [p->s] for reading, and [p->s.f = v] for an existing header. *)
Definition load (p : Z) : M header := s <- get ;; lift (hdrs s !! p).
Definition store (p : Z) (f : header → header) : M unit :=
  h <- load p ;; modify (λ s, set_hdrs (<[p := f h]> (hdrs s)) s).

Definition with_is_free (v : Z) (h : header) : header :=
  Header (s_size h) v (s_next h).
Definition with_next (v : Z) (h : header) : header :=
  Header (s_size h) (s_is_free h) v.

(** ** The extension primitive *)

(** [sbrk(increment)], as the C library implements it over the system's
    [brk] call; [None] stands for the failure value [(void* ) -1].
    - A call with [0] reports the break.
    - A positive increment moves the break up when the system grants the
      new break, and fails otherwise.
    - A negative increment fails when it is larger than the break itself.
      Otherwise the system is asked for the lower break: it leaves the
      break where it is when the new one would fall below the start of
      the data segment, and the library reports the old break all the
      same, since the break it got back is not below the one it asked for. *)
Definition sbrk (increment : Z) : M (option Z) :=
  λ s,
    if increment =? 0 then Some (Some (brk s), s)
    else
      let new := brk s + increment in
      if 0 <? increment then
        if (new <? heap_lo s) || (heap_hi s <? new) then Some (None, s)
        else Some (Some (brk s), set_brk new s)
      else
        if new <? 0 then Some (None, s)
        else if new <? heap_lo s then Some (Some (brk s), s)
        else Some (Some (brk s), set_brk new s).

(** The pointer value of a result of [sbrk]. *)
Definition void_ptr (r : option Z) : Z :=
  match r with Some a => a | None => SIZE_MAX end.

(** ** [memset] and [memcpy] on the payload bytes *)

Definition memset (p c n : Z) (m : gmap Z Z) : gmap Z Z :=
  foldr (λ i acc, <[p + i := c mod 256]> acc) m (seqZ 0 n).

(** The regions of a [memcpy] do not overlap: every byte comes from the
    memory before the call. *)
Definition memcpy (dst src n : Z) (m : gmap Z Z) : gmap Z Z :=
  foldr (λ i acc, partial_alter (λ _, m !! (src + i)) (dst + i) acc) m (seqZ 0 n).

(** ** The allocator *)

(** Fuel of the list walks: a walk that visits more header objects than
    memory holds is on a cycle. *)
Definition walk_fuel (s : state) : nat := S (size (hdrs s)).

(** The loop of [get_free_block]. *)
Fixpoint get_free_block_loop (fuel : nat) (m : gmap Z header) (size curr : Z)
  : option Z :=
  match fuel with
  | O => None
  | S fuel' =>
      if curr =? NULL then Some NULL
      else
        match m !! curr with
        | None => None
        | Some h =>
            if negb (s_is_free h =? 0) && (size <=? s_size h) then Some curr
            else get_free_block_loop fuel' m size (s_next h)
        end
  end.

Definition get_free_block (size : Z) : M Z :=
  s <- get ;;
  lift (get_free_block_loop (walk_fuel s) (hdrs s) size (head s)).

(** The loop of [free] that looks for the block before [tail]. *)
Fixpoint free_loop (fuel : nat) (m : gmap Z header) (tl tmp : Z) : option Z :=
  match fuel with
  | O => None
  | S fuel' =>
      if tmp =? NULL then Some NULL
      else
        match m !! tmp with
        | None => None
        | Some h =>
            if negb (s_next h =? tl) then free_loop fuel' m tl (s_next h)
            else Some tmp
        end
  end.

Definition free (block : Z) : M unit :=
  if block =? NULL then ret tt
  else
    let header := block - sizeof_header in
    programbreak <- sbrk 0 ;;
    h <- load header ;;
    if wrap (block + s_size h) =? void_ptr programbreak then
      s <- get ;;
      (if head s =? tail s then
         modify (set_head NULL) ;;; modify (set_tail NULL)
       else
         tmp <- lift (free_loop (walk_fuel s) (hdrs s) (tail s) (head s)) ;;
         if negb (tmp =? NULL) then
           store tmp (with_next NULL) ;;; modify (set_tail tmp)
         else ret tt) ;;;
      h' <- load header ;;
      sbrk (to_intptr (wrap (wrap (0 - s_size h') - sizeof_header))) ;;;
      ret tt
    else
      store header (with_is_free 1).

Definition malloc (size : Z) : M Z :=
  if size =? 0 then ret NULL
  else
    header <- get_free_block size ;;
    if negb (header =? NULL) then
      store header (with_is_free 0) ;;;
      ret (header + sizeof_header)
    else
      let total_size := wrap (sizeof_header + size) in
      block <- sbrk (to_intptr total_size) ;;
      match block with
      | None => ret NULL
      | Some header =>
          modify (λ s, set_hdrs (<[header := Header size 0 NULL]> (hdrs s)) s) ;;;
          s <- get ;;
          (if head s =? NULL then modify (set_head header) else ret tt) ;;;
          (if negb (tail s =? NULL) then store (tail s) (with_next header)
           else ret tt) ;;;
          modify (set_tail header) ;;;
          ret (header + sizeof_header)
      end.

Definition calloc (num nsize : Z) : M Z :=
  if (num =? 0) || (nsize =? 0) then ret NULL
  else
    let size := wrap (num * nsize) in
    if negb (nsize =? size / num) then ret NULL
    else
      block <- malloc size ;;
      if block =? NULL then ret NULL
      else
        modify (λ s, set_bytes (memset block 0 size (bytes s)) s) ;;;
        ret block.

Definition realloc (block size : Z) : M Z :=
  if (block =? NULL) || (size =? 0) then malloc size
  else
    let header := block - sizeof_header in
    h <- load header ;;
    if size <=? s_size h then ret block
    else
      r <- malloc size ;;
      if negb (r =? NULL) then
        h' <- load header ;;
        modify (λ s, set_bytes (memcpy r block (s_size h') (bytes s)) s) ;;;
        free block ;;;
        ret r
      else ret r.

(** ** Diagnostics *)

(** What one call of [printf] in the loop of [print_mem_list] is given:
    the address of a block, its size, its free flag and its link. *)
Record line := Line {
  l_addr : Z;
  l_size : Z;
  l_is_free : Z;
  l_next : Z
}.

(** The loop of [print_mem_list]. *)
Fixpoint print_mem_list_loop (fuel : nat) (m : gmap Z header) (curr : Z)
  : option (list line) :=
  match fuel with
  | O => None
  | S fuel' =>
      if curr =? NULL then Some []
      else
        match m !! curr with
        | None => None
        | Some h =>
            match print_mem_list_loop fuel' m (s_next h) with
            | Some out => Some (Line curr (s_size h) (s_is_free h) (s_next h) :: out)
            | None => None
            end
        end
  end.

(** The first [printf] on [stdout] has the C library set up the buffer of
    the stream, and the library's request for it goes to the [malloc] of
    this file, which stands in for the library's own.  [request] is the
    size asked for; it is [None] when [stdout] has its buffer already (or
    has none at all), and then [printf] does not touch the heap.  The
    library keeps the result to itself. *)
Definition printf_buffer (request : option Z) : M unit :=
  match request with
  | None => ret tt
  | Some n => malloc n ;;; ret tt
  end.

(** [print_mem_list]: its output is the values it prints, [head] and
    [tail] first and then one [line] for each block.  [curr] and the
    arguments of the first [printf] are read before that call, the blocks
    are read after it. *)
Definition print_mem_list (request : option Z) : M (Z * Z * list line) :=
  s <- get ;;
  let curr := head s in
  printf_buffer request ;;;
  s1 <- get ;;
  out <- lift (print_mem_list_loop (walk_fuel s1) (hdrs s1) curr) ;;
  ret (head s, tail s, out).

(** ** The operations as one interface *)

Inductive op : Type :=
  | Malloc (size : Z)
  | Free (block : Z)
  | Calloc (num nsize : Z)
  | Realloc (block size : Z).

(** The result of an operation is a pointer; [free] returns nothing,
    written [NULL]. *)
Definition run (o : op) : M Z :=
  match o with
  | Malloc size => malloc size
  | Free block => free block ;;; ret NULL
  | Calloc num nsize => calloc num nsize
  | Realloc block size => realloc block size
  end.

(** ** The registry as a list *)

(** [lseg m p l q]: following [next] from [p] visits the headers at the
    addresses [l] and arrives at [q]. *)
Fixpoint lseg (m : gmap Z header) (p : Z) (l : list Z) (q : Z) : Prop :=
  match l with
  | [] => p = q
  | a :: l' =>
      p = a ∧ a ≠ NULL ∧ ∃ h, m !! a = Some h ∧ lseg m (s_next h) l' q
  end.

(** The registry of a state: the list from [head] to [NULL], of which
    [tail] is the last entry. *)
Definition registry (s : state) (l : list Z) : Prop :=
  lseg (hdrs s) (head s) l NULL ∧ tail s = List.last l NULL.

(** The first block of [l] that [get_free_block] accepts. *)
Definition fits (size : Z) (h : header) : bool :=
  negb (s_is_free h =? 0) && (size <=? s_size h).

Fixpoint first_fit (m : gmap Z header) (size : Z) (l : list Z) : Z :=
  match l with
  | [] => NULL
  | a :: l' =>
      match m !! a with
      | Some h => if fits size h then a else first_fit m size l'
      | None => NULL
      end
  end.

(** [tiled m pos l top]: the blocks at [l] lie back to back from [pos] to
    [top], each a header followed by its payload. *)
Fixpoint tiled (m : gmap Z header) (pos : Z) (l : list Z) (top : Z) : Prop :=
  match l with
  | [] => pos = top
  | a :: l' =>
      a = pos ∧
      ∃ h, m !! a = Some h ∧ 0 < s_size h ∧
           tiled m (a + sizeof_header + s_size h) l' top
  end.

(** The invariant of the heap: the data segment lies in the lower half of
    the address space and the registered blocks tile it up to the break. *)
Definition heap_inv (s : state) : Prop :=
  0 < heap_lo s ∧ brk s ≤ heap_hi s ∧ heap_hi s ≤ 2 ^ 63 ∧
  ∃ l, registry s l ∧ tiled (hdrs s) (heap_lo s) l (brk s).

(** The address order of the registry. *)
Definition increasing (l : list Z) : Prop := StronglySorted Z.lt l.

(** Head and tail agree: both are [NULL] or none is, [tail] is reached
    from [head], and nothing follows [tail]. *)
Definition head_tail_consistent (s : state) : Prop :=
  (head s = NULL ↔ tail s = NULL) ∧
  (head s ≠ NULL →
     (∃ l, lseg (hdrs s) (head s) l (tail s)) ∧
     ∃ h, hdrs s !! tail s = Some h ∧ s_next h = NULL).

(** [p] is the payload address of a registered block in use. *)
Definition allocated (s : state) (l : list Z) (p : Z) : Prop :=
  p - sizeof_header ∈ l ∧
  ∃ h, hdrs s !! (p - sizeof_header) = Some h ∧ s_is_free h = 0.

(** The pointers an operation is given come from the allocator; sizes are
    [size_t] values. *)
Definition size_t (n : Z) : Prop := 0 ≤ n < 2 ^ 64.

Definition op_ok (s : state) (l : list Z) (o : op) : Prop :=
  match o with
  | Malloc size => size_t size
  | Free block => block = NULL ∨ allocated s l block
  | Calloc num nsize => size_t num ∧ size_t nsize
  | Realloc block size => size_t size ∧ (block = NULL ∨ allocated s l block)
  end.

(** The requests whose size, with the header, is a positive [intptr_t]. *)
Definition fits_intptr (n : Z) : Prop := n + sizeof_header < 2 ^ 63.

Definition op_fits (o : op) : Prop :=
  match o with
  | Malloc size => fits_intptr size
  | Free _ => True
  | Calloc num nsize => num * nsize < 2 ^ 64 → fits_intptr (num * nsize)
  | Realloc _ size => fits_intptr size
  end.

(** The states that the operations reach from the start of the process
    when every request, with its header, is a positive [intptr_t] and every
    pointer was handed out by the allocator. *)
Inductive reachable (lo hi : Z) : state → Prop :=
  | reach_init : reachable lo hi (init_state lo hi)
  | reach_step s l o r s' :
      reachable lo hi s → registry s l → op_ok s l o → op_fits o →
      run o s = Some (r, s') → reachable lo hi s'.

(** ** The outcomes of the operations *)

(** The state after a new block at [b] is linked in. *)
Definition appended (b size : Z) (top : Z) (s : state) : state :=
  let m := <[b := Header size 0 NULL]> (hdrs s) in
  State (if head s =? NULL then b else head s) b
        (if tail s =? NULL then m
         else match m !! tail s with
              | Some ht => <[tail s := with_next b ht]> m
              | None => m
              end)
        (bytes s) top (heap_lo s) (heap_hi s).

(** The state after the last block is unlinked; [tmp] is what the loop of
    [free] found. *)
Definition detached (tmp : Z) (s : state) : state :=
  if head s =? tail s then set_tail NULL (set_head NULL s)
  else if tmp =? NULL then s
  else match hdrs s !! tmp with
       | Some ht => set_tail tmp (set_hdrs (<[tmp := with_next NULL ht]> (hdrs s)) s)
       | None => s
       end.

(** The new break of a call [sbrk(sizeof(header_t) + size)]. *)
Definition grown (size : Z) (s : state) : Z :=
  brk s + to_intptr (wrap (sizeof_header + size)).

(** The break after a call of [sbrk] whose result is not looked at. *)
Definition moved (n : Z) (s : state) : Z :=
  if (n =? 0) || (brk s + n <? heap_lo s) ||
     (if 0 <? n then heap_hi s <? brk s + n else brk s + n <? 0)
  then brk s else brk s + n.

(** The new break of the call [sbrk(0 - size - sizeof(header_t))], which
    [free] does not check. *)
Definition shrunk (size : Z) (s : state) : Z :=
  moved (to_intptr (wrap (wrap (0 - size) - sizeof_header))) s.

(** What a call of [malloc] leaves behind. *)
Definition malloc_post (s : state) (l : list Z) (size r : Z)
    (s' : state) (l' : list Z) : Prop :=
  registry s' l' ∧ increasing l' ∧
  (l' = l ∨ l' = l ++ [brk s]) ∧
  (r = NULL → s' = s) ∧
  (r ≠ NULL →
     r - sizeof_header ∈ l' ∧
     ∃ h, hdrs s' !! (r - sizeof_header) = Some h ∧
          size ≤ s_size h ∧ s_is_free h = 0) ∧
  bytes s' = bytes s ∧ heap_lo s' = heap_lo s ∧ heap_hi s' = heap_hi s ∧
  (∀ a h, a ∈ l → hdrs s !! a = Some h → s_is_free h = 0 →
     a ≠ r - sizeof_header ∧
     ∃ h', hdrs s' !! a = Some h' ∧ s_size h' = s_size h ∧ s_is_free h' = 0) ∧
  tiled (hdrs s') (heap_lo s) l (brk s) ∧
  (fits_intptr size → heap_inv s').

(** What a call of [free] leaves behind. *)
Definition free_post (s : state) (l : list Z) (s' : state) (l' : list Z) : Prop :=
  registry s' l' ∧ increasing l' ∧ (l' = l ∨ l' = removelast l) ∧
  bytes s' = bytes s ∧ heap_lo s' = heap_lo s ∧ heap_hi s' = heap_hi s.

(** How an operation may change the registry: not at all, by a block
    [b] above all others at its end, or by dropping its last entry. *)
Definition reg_step (l l' : list Z) : Prop :=
  l' = l ∨ (∃ b, l' = l ++ [b] ∧ Forall (λ a, a < b) l) ∨ l' = removelast l.

(** ** Notions for the further properties *)

(** No block of [l] is free and large enough for [size]. *)
Definition none_fits (m : gmap Z header) (size : Z) (l : list Z) : Prop :=
  ∀ a h, a ∈ l → m !! a = Some h → fits size h = false.

(** The bytes that the blocks of [l] take, headers included. *)
Definition footprint (m : gmap Z header) (l : list Z) : Z :=
  foldr (λ a acc,
           sizeof_header +
           match m !! a with Some h => s_size h | None => 0 end + acc)
        0 l.

(** What [print_mem_list] needs of the request that [printf] makes for the
    buffer of [stdout]: none when there is no request; otherwise a
    well-formed heap and a size that, with the header, is a positive
    [intptr_t]. *)
Definition request_ok (s : state) (request : option Z) : Prop :=
  match request with
  | None => True
  | Some n => heap_inv s ∧ size_t n ∧ fits_intptr n
  end.

(** The lines that [print_mem_list] prints for the blocks of [l]. *)
Definition lines_of (m : gmap Z header) (l : list Z) : list line :=
  omap (λ a, match m !! a with
             | Some h => Some (Line a (s_size h) (s_is_free h) (s_next h))
             | None => None
             end) l.

(** The block with payload [q] is registered and in use in [s'] as it was
    in [s], with the same size and the same payload bytes. *)
Definition survives (s s' : state) (l' : list Z) (q : Z) : Prop :=
  ∃ h h',
    hdrs s !! (q - sizeof_header) = Some h ∧
    hdrs s' !! (q - sizeof_header) = Some h' ∧
    q - sizeof_header ∈ l' ∧
    s_size h' = s_size h ∧ s_is_free h' = 0 ∧
    ∀ i, 0 ≤ i < s_size h → bytes s' !! (q + i) = bytes s !! (q + i).

(** The operation does not release or move the block with payload [q]. *)
Definition leaves_alone (o : op) (q : Z) : Prop :=
  match o with
  | Malloc _ | Calloc _ _ => True
  | Free block => block ≠ q
  | Realloc block _ => block ≠ q
  end.

(** ** Example states *)

(** The scenario of the specification on a fresh heap at 4096: after
    [Allocate(64)], [Allocate(128)] and the release of the first block. *)
Definition scenario_state : state :=
  State 4096 4184
        (<[4096 := Header 64 1 4184]> (<[4184 := Header 128 0 NULL]> ∅))
        ∅ 4336 4096 8192.

(** Three blocks; the one in the middle is free. *)
Definition three_blocks : state :=
  State 4096 4336
        (<[4096 := Header 64 0 4184]>
           (<[4184 := Header 128 1 4336]> (<[4336 := Header 16 0 NULL]> ∅)))
        ∅ 4376 4096 8192.

(** A fresh heap and what three calls make of it: [malloc(64)],
    [malloc(SIZE_MAX - 23)] and [malloc(8)]. *)
Definition fresh_heap : state := init_state 4096 8192.

Definition one_block : state :=
  State 4096 4096 (<[4096 := Header 64 0 NULL]> ∅) ∅ 4184 4096 8192.

Definition wrapped_once : state :=
  State 4096 4184
        (<[4096 := Header 64 0 4184]>
           (<[4184 := Header (SIZE_MAX - 23) 0 NULL]> ∅))
        ∅ 4184 4096 8192.

Definition wrapped_twice : state :=
  State 4096 4184
        (<[4096 := Header 64 0 4184]> (<[4184 := Header 8 0 4184]> ∅))
        ∅ 4216 4096 8192.

(** Unfolding of the monad in proofs. *)
Ltac monad := cbv [bind ret get modify lift load store].

Arguments walk_fuel : simpl never.
Arguments get_free_block_loop : simpl never.
Arguments free_loop : simpl never.
Arguments print_mem_list_loop : simpl never.

(** * Proofs *)

(** ** Integers *)

Lemma wrap_small x : 0 ≤ x < 2 ^ 64 → wrap x = x.
Proof. intros H. unfold wrap. by apply Z.mod_small. Qed.

Lemma to_intptr_small x : x < 2 ^ 63 → to_intptr x = x.
Proof. intros H. unfold to_intptr. destruct (Z.ltb_spec x (2 ^ 63)); lia. Qed.

Lemma grow_argument n :
  0 ≤ n → fits_intptr n → to_intptr (wrap (sizeof_header + n)) = n + sizeof_header.
Proof.
  unfold fits_intptr, sizeof_header. intros H0 H1.
  rewrite wrap_small by lia. rewrite to_intptr_small; lia.
Qed.

Lemma shrink_argument n :
  0 ≤ n → n + sizeof_header ≤ 2 ^ 63 →
  to_intptr (wrap (wrap (0 - n) - sizeof_header)) = - (n + sizeof_header).
Proof.
  unfold sizeof_header, wrap, to_intptr. intros H0 H1.
  rewrite Zminus_mod_idemp_l.
  assert (E : (0 - n - 24) mod 2 ^ 64 = 2 ^ 64 - n - 24).
  { symmetry. apply Z.mod_unique with (q := -1); lia. }
  rewrite E. destruct (Z.ltb_spec (2 ^ 64 - n - 24) (2 ^ 63)); lia.
Qed.

(** ** List segments *)

Lemma lseg_app m p l1 l2 q :
  lseg m p (l1 ++ l2) q ↔ ∃ r, lseg m p l1 r ∧ lseg m r l2 q.
Proof.
  revert p. induction l1 as [|a l1 IH]; intros p; simpl.
  - split; [eauto | by intros (r & -> & H)].
  - split.
    + intros (-> & Ha & h & Hh & Hl). apply IH in Hl as (r & H1 & H2).
      exists r. eauto 10.
    + intros (r & (-> & Ha & h & Hh & H1) & H2). repeat split; auto.
      exists h. split; auto. apply IH. eauto.
Qed.

Lemma lseg_frame m p l q a h :
  a ∉ l → lseg m p l q → lseg (<[a := h]> m) p l q.
Proof.
  revert p. induction l as [|b l IH]; intros p Hni; simpl; auto.
  intros (-> & Hb & hb & Hhb & Hl).
  apply not_elem_of_cons in Hni as [Hne Hni].
  repeat split; auto. exists hb. rewrite lookup_insert_ne by done. auto.
Qed.

Lemma lseg_update m p l q a h h' :
  m !! a = Some h → s_next h' = s_next h →
  lseg m p l q → lseg (<[a := h']> m) p l q.
Proof.
  intros Ha Hn. revert p. induction l as [|b l IH]; intros p; simpl; auto.
  intros (-> & Hb & hb & Hhb & Hl). repeat split; auto.
  destruct (decide (a = b)) as [->|Hne].
  - exists h'. rewrite lookup_insert_eq. split; auto.
    rewrite Hn. replace h with hb by congruence. auto.
  - exists hb. rewrite lookup_insert_ne by done. auto.
Qed.

Lemma lseg_lookup m p l q a :
  lseg m p l q → a ∈ l → a ≠ NULL ∧ is_Some (m !! a).
Proof.
  revert p. induction l as [|b l IH]; intros p; simpl.
  - intros _ H. by apply elem_of_nil in H.
  - intros (-> & Hb & hb & Hhb & Hl) [->|Hin]%elem_of_cons; eauto.
Qed.

Lemma lseg_functional m p l1 l2 :
  lseg m p l1 NULL → lseg m p l2 NULL → l1 = l2.
Proof.
  revert p l2. induction l1 as [|a l1 IH]; intros p [|b l2]; simpl; auto.
  - intros H1 (H2 & Hb & _). congruence.
  - intros (H1 & Ha & _) H2. congruence.
  - intros (H1 & Ha & h & Hh & Hl1) (H2 & _ & h' & Hh' & Hl2). subst.
    f_equal. replace h' with h in Hl2 by congruence. eauto.
Qed.

Lemma lseg_NoDup m p l : lseg m p l NULL → NoDup l.
Proof.
  revert p. induction l as [|a l IH]; intros p; simpl.
  - intros _. constructor.
  - intros (-> & Ha & h & Hh & Hl). constructor; [|eauto].
    intros Hin. apply list_elem_of_split in Hin as (l1 & l2 & ->).
    pose proof Hl as Hl'. apply lseg_app in Hl' as (r & _ & Hr).
    simpl in Hr. destruct Hr as (-> & _ & h' & Hh' & Hr).
    replace h' with h in Hr by congruence.
    pose proof (lseg_functional _ _ _ _ Hl Hr) as E.
    apply (f_equal length) in E. rewrite length_app in E. simpl in E. lia.
Qed.

Lemma lseg_length m p l : lseg m p l NULL → (length l ≤ size m)%nat.
Proof.
  intros Hl. pose proof (lseg_NoDup _ _ _ Hl) as Hnd.
  rewrite <- (size_list_to_set (C := gset Z) l Hnd), <- (size_dom m).
  apply subseteq_size. intros a Ha. apply elem_of_list_to_set in Ha.
  apply elem_of_dom. eapply lseg_lookup; eauto.
Qed.

Lemma lseg_first m p l q : lseg m p l q → p = List.hd q l.
Proof. destruct l; simpl; [done | by intros (-> & _)]. Qed.

(** ** The two loops *)

Lemma get_free_block_loop_step fuel m size curr :
  get_free_block_loop (S fuel) m size curr =
    if curr =? NULL then Some NULL
    else match m !! curr with
         | None => None
         | Some h => if fits size h then Some curr
                     else get_free_block_loop fuel m size (s_next h)
         end.
Proof. reflexivity. Qed.

Lemma free_loop_step fuel m tl tmp :
  free_loop (S fuel) m tl tmp =
    if tmp =? NULL then Some NULL
    else match m !! tmp with
         | None => None
         | Some h => if negb (s_next h =? tl) then free_loop fuel m tl (s_next h)
                     else Some tmp
         end.
Proof. reflexivity. Qed.

Lemma get_free_block_loop_spec m size l :
  ∀ fuel p,
    lseg m p l NULL → (length l < fuel)%nat →
    get_free_block_loop fuel m size p = Some (first_fit m size l).
Proof.
  induction l as [|a l IH]; intros [|fuel] p; simpl; try lia;
    rewrite get_free_block_loop_step.
  - intros -> _. done.
  - intros (-> & Ha & h & Hh & Hl) Hf.
    destruct (Z.eqb_spec a NULL) as [|_]; [done|].
    rewrite Hh. destruct (fits size h); [done|].
    apply IH; [done | lia].
Qed.

Lemma free_loop_spec m tl a h l :
  ∀ fuel p,
    lseg m p l a → a ≠ NULL → m !! a = Some h → s_next h = tl →
    tl ∉ l → tl ≠ a → (length l < fuel)%nat →
    free_loop fuel m tl p = Some a.
Proof.
  induction l as [|b l IH]; intros [|fuel] p; simpl; try lia;
    rewrite free_loop_step.
  - intros -> Ha Hh Hn _ _ _.
    destruct (Z.eqb_spec a NULL) as [|_]; [done|].
    rewrite Hh. destruct (Z.eqb_spec (s_next h) tl); [done | congruence].
  - intros (-> & Hb & hb & Hhb & Hl) Ha Hh Hn Hni Hne Hf.
    apply not_elem_of_cons in Hni as [Hne' Hni].
    destruct (Z.eqb_spec b NULL) as [|_]; [done|].
    rewrite Hhb. destruct (Z.eqb_spec (s_next hb) tl) as [E|_]; simpl.
    + exfalso. pose proof (lseg_first _ _ _ _ Hl) as E'.
      destruct l as [|c l]; simpl in E'; [congruence|].
      apply Hni. rewrite <- E, E'. apply elem_of_cons. auto.
    + apply IH; auto. lia.
Qed.

(** ** The layout of the blocks *)

Lemma tiled_app m pos l1 l2 top :
  tiled m pos (l1 ++ l2) top ↔ ∃ mid, tiled m pos l1 mid ∧ tiled m mid l2 top.
Proof.
  revert pos. induction l1 as [|a l1 IH]; intros pos; simpl.
  - split; [eauto | by intros (r & -> & H)].
  - split.
    + intros (-> & h & Hh & Hs & Hl). apply IH in Hl as (r & H1 & H2).
      exists r. eauto 10.
    + intros (r & (-> & h & Hh & Hs & H1) & H2). split; auto.
      exists h. repeat split; auto. apply IH. eauto.
Qed.

Lemma tiled_frame m pos l top a h :
  a ∉ l → tiled m pos l top → tiled (<[a := h]> m) pos l top.
Proof.
  revert pos. induction l as [|b l IH]; intros pos Hni; simpl; auto.
  intros (-> & hb & Hhb & Hs & Hl).
  apply not_elem_of_cons in Hni as [Hne Hni].
  split; auto. exists hb. rewrite lookup_insert_ne by done. auto.
Qed.

Lemma tiled_update m pos l top a h h' :
  m !! a = Some h → s_size h' = s_size h →
  tiled m pos l top → tiled (<[a := h']> m) pos l top.
Proof.
  intros Ha Hn. revert pos. induction l as [|b l IH]; intros pos; simpl; auto.
  intros (-> & hb & Hhb & Hs & Hl). split; auto.
  destruct (decide (a = pos)) as [->|Hne].
  - exists h'. rewrite lookup_insert_eq. replace h with hb in Hn by congruence.
    rewrite Hn. auto.
  - exists hb. rewrite lookup_insert_ne by done. auto.
Qed.

Lemma tiled_le m pos l top : tiled m pos l top → pos ≤ top.
Proof.
  revert pos. induction l as [|a l IH]; intros pos; simpl; [lia|].
  intros (-> & h & _ & Hs & Hl). apply IH in Hl. unfold sizeof_header in *. lia.
Qed.

Lemma tiled_bounds m pos l top a :
  tiled m pos l top → a ∈ l →
  ∃ h, m !! a = Some h ∧ 0 < s_size h ∧
       pos ≤ a ∧ a + sizeof_header + s_size h ≤ top.
Proof.
  revert pos. induction l as [|b l IH]; intros pos; simpl.
  - intros _ H. by apply elem_of_nil in H.
  - intros (-> & h & Hh & Hs & Hl) [->|Hin]%elem_of_cons.
    + exists h. apply tiled_le in Hl. repeat split; auto. lia.
    + destruct (IH _ Hl Hin) as (h' & ? & ? & ? & ?).
      exists h'. repeat split; auto. unfold sizeof_header in *. lia.
Qed.

Lemma tiled_increasing m pos l top : tiled m pos l top → increasing l.
Proof.
  unfold increasing. revert pos.
  induction l as [|a l IH]; intros pos; simpl; [constructor|].
  intros (-> & h & Hh & Hs & Hl). constructor; [eauto|].
  apply Forall_forall. intros b Hb.
  destruct (tiled_bounds _ _ _ _ _ Hl Hb) as (h' & _ & _ & ? & _).
  unfold sizeof_header in *. lia.
Qed.

Lemma tiled_disjoint m pos l top a b ha hb :
  tiled m pos l top → a ∈ l → b ∈ l → a ≠ b →
  m !! a = Some ha → m !! b = Some hb →
  a + sizeof_header + s_size ha ≤ b ∨ b + sizeof_header + s_size hb ≤ a.
Proof.
  revert pos. induction l as [|c l IH]; intros pos; simpl.
  - intros _ H. by apply elem_of_nil in H.
  - intros (-> & h & Hh & Hs & Hl) Ha Hb Hne Hha Hhb.
    apply elem_of_cons in Ha as [->|Ha], Hb as [->|Hb]; [done | | | eauto].
    + left. destruct (tiled_bounds _ _ _ _ _ Hl Hb) as (? & _ & _ & ? & _).
      replace ha with h by congruence. done.
    + right. destruct (tiled_bounds _ _ _ _ _ Hl Ha) as (? & _ & _ & ? & _).
      replace hb with h by congruence. done.
Qed.

Lemma tiled_top_last m pos l top a h :
  tiled m pos l top → a ∈ l → m !! a = Some h →
  a + sizeof_header + s_size h = top → List.last l NULL = a.
Proof.
  revert pos. induction l as [|b l IH]; intros pos; simpl.
  - intros _ H. by apply elem_of_nil in H.
  - intros (-> & hb & Hhb & Hs & Hl) Ha Hh Htop.
    destruct l as [|c l]; [by apply list_elem_of_singleton in Ha|].
    apply elem_of_cons in Ha as [->|Ha]; [|eauto].
    exfalso. replace hb with h in Hl by congruence.
    destruct (tiled_bounds _ _ _ _ c Hl) as (hc & _ & ? & ? & ?);
      [apply elem_of_cons; auto|].
    unfold sizeof_header in *. lia.
Qed.

Lemma increasing_NoDup l : increasing l → NoDup l.
Proof.
  induction 1 as [|a l _ IH Hall]; constructor; auto.
  intros Hin. rewrite Forall_forall in Hall. specialize (Hall _ Hin). lia.
Qed.

Lemma increasing_snoc l a :
  increasing l → Forall (λ b, b < a) l → increasing (l ++ [a]).
Proof.
  unfold increasing. induction 1 as [|b l Hl IH Hall]; intros Hlt; simpl.
  - repeat constructor.
  - apply Forall_cons in Hlt as [Hb Hlt]. constructor; [auto|].
    apply Forall_app. split; [done|]. repeat constructor. done.
Qed.

Lemma increasing_removelast l : increasing l → increasing (removelast l).
Proof.
  unfold increasing. induction 1 as [|b l Hl IH Hall]; simpl; [constructor|].
  destruct l as [|c l]; [constructor|]. constructor; [done|].
  rewrite Forall_forall in *. intros x Hx. apply Hall.
  assert (Hin : In x (removelast (c :: l))) by (by apply list_elem_of_In).
  apply list_elem_of_In. clear -Hin. revert Hin.
  generalize (c :: l). intros l'. induction l' as [|y l' IH]; simpl; [done|].
  destruct l'; [done|]. intros [->|H]; [by left | right; auto].
Qed.

(** ** The first fit *)

Lemma first_fit_elem m size l a :
  first_fit m size l = a → a ≠ NULL →
  a ∈ l ∧ ∃ h, m !! a = Some h ∧ fits size h = true.
Proof.
  induction l as [|b l IH]; simpl; [congruence|].
  destruct (m !! b) as [h|] eqn:Hb; [|congruence].
  destruct (fits size h) eqn:Hf.
  - intros <- _. split; [apply elem_of_cons; auto | eauto].
  - intros E Ha. destruct (IH E Ha). split; [apply elem_of_cons|]; auto.
Qed.

Lemma first_fit_split m size pre a post h :
  m !! a = Some h → fits size h = true →
  (∀ b hb, b ∈ pre → m !! b = Some hb → fits size hb = false) →
  Forall (λ b, is_Some (m !! b)) pre →
  first_fit m size (pre ++ a :: post) = a.
Proof.
  intros Ha Hf. induction pre as [|b pre IH]; simpl; intros Hpre Hall.
  - by rewrite Ha, Hf.
  - apply Forall_cons in Hall as [[hb Hb] Hall]. rewrite Hb.
    rewrite (Hpre b hb); [|apply elem_of_cons; auto|done].
    apply IH; [|done]. intros c hc Hc. apply Hpre, elem_of_cons. auto.
Qed.

(** ** The extension primitive *)

Lemma sbrk_zero s : sbrk 0 s = Some (Some (brk s), s).
Proof. done. Qed.

Lemma sbrk_move n s :
  n ≠ 0 → 0 < n ∨ 0 ≤ heap_lo s → heap_lo s ≤ brk s + n ≤ heap_hi s →
  sbrk n s = Some (Some (brk s), set_brk (brk s + n) s).
Proof.
  intros Hn Hlo [H1 H2]. unfold sbrk. destruct (Z.eqb_spec n 0); [done|].
  destruct (Z.ltb_spec 0 n).
  - destruct (Z.ltb_spec (brk s + n) (heap_lo s)); [lia|].
    destruct (Z.ltb_spec (heap_hi s) (brk s + n)); [lia|]. done.
  - destruct (Z.ltb_spec (brk s + n) 0); [lia|].
    destruct (Z.ltb_spec (brk s + n) (heap_lo s)); [lia|]. done.
Qed.

Lemma set_brk_same s : set_brk (brk s) s = s.
Proof. by destruct s. Qed.

(** [sbrk] with an increment that is not negative returns, and touches
    the break only. *)
Lemma sbrk_cases n s :
  0 ≤ n →
  sbrk n s = Some (None, s) ∨
  sbrk n s = Some (Some (brk s), set_brk (brk s + n) s) ∧
  (n = 0 ∨ heap_lo s ≤ brk s + n ≤ heap_hi s).
Proof.
  intros Hpos. unfold sbrk. destruct (Z.eqb_spec n 0) as [->|Hn].
  - right. rewrite Z.add_0_r, set_brk_same. auto.
  - destruct (Z.ltb_spec 0 n); [|lia].
    destruct (Z.ltb_spec (brk s + n) (heap_lo s)); [auto|].
    destruct (Z.ltb_spec (heap_hi s) (brk s + n)); [auto|].
    right. split; [done|]. right. lia.
Qed.

(** ** The equations of [malloc] *)

Lemma get_free_block_spec s size l :
  lseg (hdrs s) (head s) l NULL →
  get_free_block size s = Some (first_fit (hdrs s) size l, s).
Proof.
  intros Hl. unfold get_free_block. monad.
  rewrite (get_free_block_loop_spec _ _ l); [done | done |].
  unfold walk_fuel. apply lseg_length in Hl. lia.
Qed.

Lemma malloc_zero s : malloc 0 s = Some (NULL, s).
Proof. done. Qed.

Lemma malloc_hit s size l a h :
  size ≠ 0 → lseg (hdrs s) (head s) l NULL →
  first_fit (hdrs s) size l = a → a ≠ NULL → hdrs s !! a = Some h →
  malloc size s =
    Some (a + sizeof_header, set_hdrs (<[a := with_is_free 0 h]> (hdrs s)) s).
Proof.
  intros Hs Hl Hfit Ha Hh. unfold malloc.
  destruct (Z.eqb_spec size 0); [done|].
  unfold bind at 1. rewrite (get_free_block_spec _ _ l Hl), Hfit.
  destruct (Z.eqb_spec a NULL); [done|]. simpl. monad. by rewrite Hh.
Qed.

Lemma malloc_refused s size l :
  size ≠ 0 → lseg (hdrs s) (head s) l NULL →
  first_fit (hdrs s) size l = NULL →
  sbrk (to_intptr (wrap (sizeof_header + size))) s = Some (None, s) →
  malloc size s = Some (NULL, s).
Proof.
  intros Hs Hl Hfit Hbrk. unfold malloc.
  destruct (Z.eqb_spec size 0); [done|].
  unfold bind at 1. rewrite (get_free_block_spec _ _ l Hl), Hfit. simpl.
  unfold bind at 1. by rewrite Hbrk.
Qed.

Lemma malloc_grow s size l b top :
  size ≠ 0 → lseg (hdrs s) (head s) l NULL →
  first_fit (hdrs s) size l = NULL →
  sbrk (to_intptr (wrap (sizeof_header + size))) s =
    Some (Some b, set_brk top s) →
  tail s = NULL ∨ is_Some (<[b := Header size 0 NULL]> (hdrs s) !! tail s) →
  malloc size s = Some (b + sizeof_header, appended b size top s).
Proof.
  intros Hs Hl Hfit Hbrk Htl. unfold malloc.
  destruct (Z.eqb_spec size 0); [done|].
  unfold bind at 1. rewrite (get_free_block_spec _ _ l Hl), Hfit. simpl.
  unfold bind at 1. rewrite Hbrk. monad. simpl. unfold appended.
  destruct (Z.eqb_spec (tail s) NULL) as [E|E]; simpl.
  - destruct (head s =? NULL); reflexivity.
  - destruct Htl as [|[ht Hht]]; [done|].
    destruct (head s =? NULL); simpl; rewrite Hht; reflexivity.
Qed.

(** ** The equations of [free] *)

Lemma free_null s : free NULL s = Some (tt, s).
Proof. done. Qed.

Lemma free_mark s p h :
  p ≠ NULL → hdrs s !! (p - sizeof_header) = Some h →
  wrap (p + s_size h) ≠ brk s →
  free p s =
    Some (tt, set_hdrs (<[p - sizeof_header := with_is_free 1 h]> (hdrs s)) s).
Proof.
  intros Hp Hh Htop. unfold free. destruct (Z.eqb_spec p NULL); [done|].
  monad. rewrite sbrk_zero, Hh. simpl.
  destruct (Z.eqb_spec (wrap (p + s_size h)) (brk s)); [done|]. by rewrite Hh.
Qed.

Lemma detached_lookup tmp s a h :
  hdrs s !! a = Some h →
  ∃ h', hdrs (detached tmp s) !! a = Some h' ∧ s_size h' = s_size h ∧
        s_is_free h' = s_is_free h.
Proof.
  intros Hh. unfold detached. destruct (head s =? tail s); [eauto|].
  destruct (tmp =? NULL); [eauto|].
  destruct (hdrs s !! tmp) as [ht|] eqn:Ht; [|eauto]. simpl.
  destruct (decide (tmp = a)) as [->|Hne].
  - rewrite lookup_insert_eq. replace ht with h by congruence. eauto.
  - rewrite lookup_insert_ne by done. eauto.
Qed.

Lemma free_top s p h tmp r s' :
  p ≠ NULL → hdrs s !! (p - sizeof_header) = Some h →
  wrap (p + s_size h) = brk s →
  head s = tail s ∨
    free_loop (walk_fuel s) (hdrs s) (tail s) (head s) = Some tmp ∧
    (tmp = NULL ∨ is_Some (hdrs s !! tmp)) →
  sbrk (to_intptr (wrap (wrap (0 - s_size h) - sizeof_header))) (detached tmp s)
    = Some (r, s') →
  free p s = Some (tt, s').
Proof.
  intros Hp Hh Htop Hloop Hbrk. unfold free.
  destruct (Z.eqb_spec p NULL); [done|].
  unfold bind at 1. rewrite sbrk_zero. unfold bind at 1, load at 1. monad.
  rewrite Hh. simpl.
  destruct (Z.eqb_spec (wrap (p + s_size h)) (brk s)); [|done].
  destruct (detached_lookup tmp s _ _ Hh) as (h' & Hh' & Hsz & _).
  rewrite <- Hsz in Hbrk. unfold detached in *.
  destruct (Z.eqb_spec (head s) (tail s)) as [E|E]; simpl.
  - simpl in Hh'. rewrite Hh'. by rewrite Hbrk.
  - destruct Hloop as [|[-> Htmp]]; [done|]. simpl.
    destruct (Z.eqb_spec tmp NULL) as [E'|E']; simpl.
    + rewrite Hh'. by rewrite Hbrk.
    + destruct Htmp as [|[ht Ht]]; [done|]. rewrite Ht in *. simpl in *.
      rewrite Hh'. by rewrite Hbrk.
Qed.

(** ** The registry across the three updates *)

Lemma registry_mark s l a h v :
  registry s l → hdrs s !! a = Some h →
  registry (set_hdrs (<[a := with_is_free v h]> (hdrs s)) s) l.
Proof.
  intros [Hl Ht] Hh. split; [|done]. simpl. by eapply lseg_update.
Qed.

Lemma registry_functional s l1 l2 : registry s l1 → registry s l2 → l1 = l2.
Proof. intros [H1 _] [H2 _]. by eapply lseg_functional. Qed.

Lemma registry_empty s : registry s [] ↔ head s = NULL ∧ tail s = NULL.
Proof. done. Qed.

Lemma appended_registry s l b size top :
  registry s l → increasing l → Forall (λ a, a < b) l → b ≠ NULL →
  registry (appended b size top s) (l ++ [b]) ∧
  hdrs (appended b size top s) !! b = Some (Header size 0 NULL).
Proof.
  intros [Hl Ht] Hinc Hlt Hb. unfold registry. rewrite last_last.
  destruct l as [|x l0] using rev_ind.
  - simpl in *. unfold appended. rewrite Hl, Ht. simpl.
    rewrite lookup_insert_eq. repeat split; auto. eauto.
  - clear IHl0. rewrite last_last in Ht.
    assert (Hx : x ≠ NULL ∧ is_Some (hdrs s !! x)).
    { eapply lseg_lookup; [done|]. apply elem_of_app. right.
      by apply list_elem_of_singleton. }
    destruct Hx as [Hx [hx Hhx]].
    assert (Hhd : head s ≠ NULL).
    { destruct l0; simpl in Hl; destruct Hl as (-> & ? & _); done. }
    apply Forall_app in Hlt as [Hlt Hxb]. apply Forall_cons in Hxb as [Hxb _].
    simpl in Hxb.
    pose proof (increasing_NoDup _ Hinc) as Hnd.
    apply NoDup_app in Hnd as (_ & Hnd & _).
    assert (Hxl : x ∉ l0).
    { intros Hin. apply (Hnd _ Hin). by apply list_elem_of_singleton. }
    assert (Hbl : b ∉ l0).
    { intros Hin. rewrite Forall_forall in Hlt. specialize (Hlt _ Hin).
      simpl in Hlt. lia. }
    apply lseg_app in Hl as (r & Hl0 & Hr). simpl in Hr.
    destruct Hr as (-> & _ & hx' & Hhx' & Hnx).
    replace hx' with hx in Hnx by congruence.
    unfold appended. rewrite Ht.
    destruct (Z.eqb_spec x NULL) as [|_]; [done|].
    destruct (Z.eqb_spec (head s) NULL) as [|_]; [done|].
    rewrite lookup_insert_ne by lia. rewrite Hhx. simpl.
    rewrite lookup_insert_ne by lia. rewrite lookup_insert_eq.
    repeat split; auto. rewrite <- app_assoc. apply lseg_app. exists x. split.
    + by apply lseg_frame, lseg_frame.
    + simpl. repeat split; auto. eexists. rewrite lookup_insert_eq.
      split; [done|]. simpl. repeat split; auto. eexists.
      rewrite lookup_insert_ne by lia. rewrite lookup_insert_eq. done.
Qed.

Lemma appended_tiled_old s l b size top pos mid :
  tiled (hdrs s) pos l mid → b ∉ l →
  tiled (hdrs (appended b size top s)) pos l mid.
Proof.
  intros Hl Hbl.
  pose proof (tiled_frame _ _ _ _ b (Header size 0 NULL) Hbl Hl) as Hl'.
  unfold appended. simpl. destruct (tail s =? NULL); [done|].
  destruct (<[b := _]> (hdrs s) !! tail s) as [ht|] eqn:Hht; [|done].
  by eapply tiled_update.
Qed.

Lemma appended_tiled s l b size top pos :
  tiled (hdrs s) pos l b → 0 < size → top = b + sizeof_header + size →
  hdrs (appended b size top s) !! b = Some (Header size 0 NULL) →
  tiled (hdrs (appended b size top s)) pos (l ++ [b]) top.
Proof.
  intros Hl Hs -> Hb. apply tiled_app. exists b.
  assert (Hbl : b ∉ l).
  { intros Hin. destruct (tiled_bounds _ _ _ _ _ Hl Hin) as (? & _ & ? & _ & ?).
    unfold sizeof_header in *. lia. }
  split; [by apply appended_tiled_old|].
  simpl. split; [done|]. eexists. split; [exact Hb|]. done.
Qed.

Lemma detached_tiled tmp s pos l top :
  tiled (hdrs s) pos l top → tiled (hdrs (detached tmp s)) pos l top.
Proof.
  intros Hl. unfold detached. destruct (head s =? tail s); [done|].
  destruct (tmp =? NULL); [done|].
  destruct (hdrs s !! tmp) as [ht|] eqn:Ht; [|done]. simpl.
  by eapply tiled_update.
Qed.

Lemma detached_registry s l :
  registry s l → increasing l →
  ∃ tmp,
    (head s = tail s ∨
       free_loop (walk_fuel s) (hdrs s) (tail s) (head s) = Some tmp ∧
       (tmp = NULL ∨ is_Some (hdrs s !! tmp))) ∧
    registry (detached tmp s) (removelast l).
Proof.
  intros [Hl Ht] Hinc.
  destruct l as [|t l0] using rev_ind; [|clear IHl0].
  { exists NULL. simpl in *. split; [left; congruence|].
    unfold detached. rewrite Hl, Ht. done. }
  rewrite last_last in Ht. rewrite removelast_last.
  destruct l0 as [|p l0] using rev_ind; [|clear IHl0].
  { exists NULL. simpl in *. destruct Hl as (Hh & _). split; [left; congruence|].
    unfold detached. rewrite Hh, Ht, Z.eqb_refl. done. }
  pose proof (lseg_length _ _ _ Hl) as Hlen.
  pose proof (increasing_NoDup _ Hinc) as Hnd.
  rewrite <- app_assoc in *. simpl in *.
  apply NoDup_app in Hnd as (Hnd0 & Hdis & Hnd1).
  apply NoDup_cons in Hnd1 as [Hpt _].
  assert (Hpt' : p ≠ t).
  { intros ->. apply Hpt, list_elem_of_singleton. done. }
  assert (Htl : t ∉ l0).
  { intros Hin. apply (Hdis _ Hin). apply elem_of_cons. right.
    by apply list_elem_of_singleton. }
  assert (Hpl : p ∉ l0).
  { intros Hin. apply (Hdis _ Hin). apply elem_of_cons. by left. }
  pose proof Hl as Hl'. apply lseg_app in Hl' as (r & Hl0 & Hr). simpl in Hr.
  destruct Hr as (-> & Hp & hp & Hhp & Hnp & Htn & ht & Hht & Hnt).
  assert (Hne : head s ≠ tail s).
  { rewrite Ht. destruct l0 as [|x l0]; simpl in Hl0.
    - congruence.
    - destruct Hl0 as (-> & _). intros ->. apply Htl, elem_of_cons. by left. }
  exists p. split.
  - right. split; [|eauto]. rewrite Ht.
    eapply free_loop_spec; eauto. unfold walk_fuel.
    rewrite length_app in Hlen. simpl in Hlen. lia.
  - unfold detached. destruct (Z.eqb_spec (head s) (tail s)); [done|].
    destruct (Z.eqb_spec p NULL); [done|]. rewrite Hhp.
    split; simpl; [|by rewrite last_last].
    apply lseg_app. exists p. split; [by apply lseg_frame|].
    simpl. repeat split; auto. eexists. rewrite lookup_insert_eq. done.
Qed.

(** ** The cases of [malloc] and [free] on a well-formed heap *)

Lemma last_elem (l : list Z) d : l ≠ [] → List.last l d ∈ l.
Proof.
  destruct l as [|x l] using rev_ind; [done|]. intros _.
  rewrite last_last. apply elem_of_app. right. by apply list_elem_of_singleton.
Qed.

Lemma registry_tail_lookup s l b hb :
  registry s l → tail s = NULL ∨ is_Some (<[b := hb]> (hdrs s) !! tail s).
Proof.
  intros [Hl Ht]. destruct l as [|x l0] eqn:El; [by left|]. right.
  rewrite <- El in *.
  assert (Hin : tail s ∈ l) by (rewrite Ht; apply last_elem; by subst).
  destruct (lseg_lookup _ _ _ _ _ Hl Hin) as [_ [ht Hht]].
  rewrite lookup_insert. case_decide; eauto.
Qed.

Lemma heap_inv_registry s l :
  heap_inv s → registry s l →
  tiled (hdrs s) (heap_lo s) l (brk s) ∧ increasing l ∧
  0 < heap_lo s ∧ heap_lo s ≤ brk s ∧ brk s ≤ heap_hi s ∧ heap_hi s ≤ 2 ^ 63.
Proof.
  intros (Hlo & Hhi & Hhalf & l' & Hreg & Ht) Hl.
  rewrite (registry_functional _ _ _ Hl Hreg).
  pose proof (tiled_le _ _ _ _ Ht). pose proof (tiled_increasing _ _ _ _ Ht).
  auto 10.
Qed.

Lemma malloc_cases s l size :
  registry s l → size_t size → fits_intptr size →
  malloc size s = Some (NULL, s) ∨
  (∃ a h, size ≠ 0 ∧ a ∈ l ∧ hdrs s !! a = Some h ∧ fits size h = true ∧
          first_fit (hdrs s) size l = a ∧
          malloc size s =
            Some (a + sizeof_header,
                  set_hdrs (<[a := with_is_free 0 h]> (hdrs s)) s)) ∨
  (size ≠ 0 ∧ first_fit (hdrs s) size l = NULL ∧
   (to_intptr (wrap (sizeof_header + size)) = 0 ∨
    heap_lo s ≤ grown size s ≤ heap_hi s) ∧
   malloc size s =
     Some (brk s + sizeof_header, appended (brk s) size (grown size s) s)).
Proof.
  intros [Hl Ht] Hsz Hfits.
  destruct (decide (size = 0)) as [->|Hs]; [by left|].
  destruct (decide (first_fit (hdrs s) size l = NULL)) as [Hfit|Hfit].
  - destruct (sbrk_cases (to_intptr (wrap (sizeof_header + size))) s)
      as [Hbrk|[Hbrk Htop]].
    { unfold size_t in Hsz. rewrite grow_argument by (lia || done).
      unfold sizeof_header. lia. }
    + left. by eapply malloc_refused.
    + right. right. repeat split; auto.
      eapply malloc_grow; eauto.
      by apply (registry_tail_lookup s l).
  - right. left.
    destruct (first_fit_elem _ _ _ _ eq_refl Hfit) as (Hin & h & Hh & Hf).
    exists (first_fit (hdrs s) size l), h. repeat split; auto.
    by eapply malloc_hit.
Qed.

Lemma detached_fields tmp s :
  brk (detached tmp s) = brk s ∧ heap_lo (detached tmp s) = heap_lo s ∧
  heap_hi (detached tmp s) = heap_hi s ∧ bytes (detached tmp s) = bytes s.
Proof.
  unfold detached. destruct (head s =? tail s); [done|].
  destruct (tmp =? NULL); [done|]. by destruct (hdrs s !! tmp).
Qed.

Lemma sbrk_moved n s : ∃ r, sbrk n s = Some (r, set_brk (moved n s) s).
Proof.
  unfold sbrk, moved. destruct (n =? 0); simpl.
  { rewrite set_brk_same. eauto. }
  destruct (0 <? n), (brk s + n <? heap_lo s), (heap_hi s <? brk s + n),
    (brk s + n <? 0); simpl; rewrite ?set_brk_same; eauto.
Qed.

Lemma free_cases s l p h :
  registry s l → increasing l →
  p ≠ NULL → hdrs s !! (p - sizeof_header) = Some h →
  0 ≤ p + s_size h < 2 ^ 64 →
  (p + s_size h ≠ brk s ∧
   free p s =
     Some (tt, set_hdrs (<[p - sizeof_header := with_is_free 1 h]> (hdrs s)) s)) ∨
  (p + s_size h = brk s ∧
   ∃ tmp, registry (detached tmp s) (removelast l) ∧
          free p s =
            Some (tt, set_brk (shrunk (s_size h) s) (detached tmp s))).
Proof.
  intros Hreg Hinc Hp Hh Hsum. pose proof (wrap_small _ Hsum) as Ew.
  destruct (decide (p + s_size h = brk s)) as [Htop|Htop].
  - right. split; [done|]. rewrite <- Ew in Htop.
    destruct (detached_registry _ _ Hreg Hinc) as (tmp & Hloop & Hreg').
    exists tmp. split; [done|].
    destruct (detached_fields tmp s) as (Eb & Elo & Ehi & _).
    destruct (sbrk_moved (to_intptr (wrap (wrap (0 - s_size h) - sizeof_header)))
                (detached tmp s)) as [r Hr].
    eapply free_top; eauto. rewrite Hr. unfold shrunk, moved.
    by rewrite Eb, Elo, Ehi.
  - left. split; [done|]. apply free_mark; [done | done | by rewrite Ew].
Qed.

(** On a well-formed heap the end of a registered block is an address
    below [2^63]: the sum that [free] compares with the break does not
    wrap. *)
Lemma block_end_small s l p h :
  heap_inv s → registry s l → p - sizeof_header ∈ l →
  hdrs s !! (p - sizeof_header) = Some h → 0 ≤ p + s_size h < 2 ^ 64.
Proof.
  intros Hinv Hreg Hin Hh.
  destruct (heap_inv_registry _ _ Hinv Hreg)
    as (Ht & Hinc & Hlo & Hle & Hhi & Hhalf).
  destruct (tiled_bounds _ _ _ _ _ Ht Hin) as (h' & Hh' & Hs & Hlow & Hup).
  replace h' with h in * by congruence. unfold sizeof_header in *. lia.
Qed.

Lemma appended_lookup b size top s a h :
  a ≠ b → hdrs s !! a = Some h →
  ∃ h', hdrs (appended b size top s) !! a = Some h' ∧
        s_size h' = s_size h ∧ s_is_free h' = s_is_free h.
Proof.
  intros Hne Hh. unfold appended. simpl.
  destruct (tail s =? NULL).
  { rewrite lookup_insert_ne by done. eauto. }
  destruct (<[b := _]> (hdrs s) !! tail s) as [ht|] eqn:Hht.
  - destruct (decide (tail s = a)) as [E|E].
    + rewrite E in *. rewrite lookup_insert_eq.
      rewrite lookup_insert_ne in Hht by done.
      replace ht with h by congruence. eauto.
    + rewrite lookup_insert_ne by done. rewrite lookup_insert_ne by done. eauto.
  - rewrite lookup_insert_ne by done. eauto.
Qed.

Lemma tiled_below m pos l top :
  tiled m pos l top → Forall (λ a, a < top) l.
Proof.
  intros Hl. apply Forall_forall. intros a Ha.
  destruct (tiled_bounds _ _ _ _ _ Hl Ha) as (h & _ & ? & ? & ?).
  unfold sizeof_header in *. lia.
Qed.

Lemma malloc_step s l size :
  heap_inv s → registry s l → size_t size → fits_intptr size →
  ∃ r s' l', malloc size s = Some (r, s') ∧ malloc_post s l size r s' l'.
Proof.
  intros Hinv Hreg Hsz Hfit0.
  destruct (heap_inv_registry _ _ Hinv Hreg)
    as (Ht & Hinc & Hlo & Hle & Hhi & Hhalf).
  destruct (malloc_cases s l size Hreg Hsz Hfit0)
    as [E|[(a & h & Hs & Hin & Hh & Hf & _ & E)|(Hs & _ & Htop & E)]].
  - exists NULL, s, l. split; [done|]. unfold malloc_post.
    split_and!; try done; [by left|]. intros a h Hin Hh Hfree.
    destruct (tiled_bounds _ _ _ _ _ Ht Hin) as (? & _ & _ & ? & _).
    unfold NULL, sizeof_header. split; [lia | eauto].
  - exists (a + sizeof_header), (set_hdrs (<[a := with_is_free 0 h]> (hdrs s)) s), l.
    split; [done|].
    assert (Hreg' : registry (set_hdrs (<[a := with_is_free 0 h]> (hdrs s)) s) l)
      by (by apply registry_mark).
    assert (Ht' : tiled (<[a := with_is_free 0 h]> (hdrs s)) (heap_lo s) l (brk s))
      by (by eapply tiled_update).
    apply andb_true_iff in Hf as [Hfree Hfit].
    apply negb_true_iff, Z.eqb_neq in Hfree. apply Z.leb_le in Hfit.
    replace (a + sizeof_header - sizeof_header) with a by lia.
    assert (Ea : a + sizeof_header - sizeof_header = a) by lia.
    unfold malloc_post. rewrite Ea. split_and!; try done.
    + by left.
    + intros E'. exfalso.
      destruct (tiled_bounds _ _ _ _ _ Ht Hin) as (? & _ & _ & ? & _).
      unfold NULL, sizeof_header in *. lia.
    + intros _. split; [done|]. eexists. simpl. rewrite lookup_insert_eq. done.
    + intros c hc Hc Hhc Hfc. assert (c ≠ a) by congruence. split; [done|].
      simpl. rewrite lookup_insert_ne by done. eauto.
    + intros _. unfold heap_inv. split_and!; try done. exists l. done.
  - exists (brk s + sizeof_header), (appended (brk s) size (grown size s) s),
           (l ++ [brk s]).
    split; [done|].
    pose proof (tiled_below _ _ _ _ Ht) as Hbelow.
    destruct (appended_registry s l (brk s) size (grown size s))
      as [Hreg' Hnew]; auto; [unfold NULL; lia|].
    assert (Ea : brk s + sizeof_header - sizeof_header = brk s) by lia.
    unfold malloc_post. rewrite Ea. split_and!; try done.
    + by apply increasing_snoc.
    + by right.
    + unfold NULL, sizeof_header. lia.
    + intros _. split.
      * apply elem_of_app. right. by apply list_elem_of_singleton.
      * eexists. split; [done|]. simpl. split; [lia | done].
    + intros a h Hin Hh Hfree.
      rewrite Forall_forall in Hbelow. specialize (Hbelow _ Hin).
      simpl in Hbelow. split; [lia|].
      destruct (appended_lookup (brk s) size (grown size s) s a h)
        as (h' & ? & ? & ?); [lia | done |]. exists h'. split; [done|].
      split; [done | congruence].
    + apply appended_tiled_old; [done|]. intros Hin.
      rewrite Forall_forall in Hbelow. specialize (Hbelow _ Hin).
      simpl in Hbelow. lia.
    + intros Hfits. unfold size_t in Hsz.
      assert (Eg : grown size s = brk s + sizeof_header + size).
      { unfold grown. rewrite grow_argument; [lia | lia | done]. }
      assert (Hn0 : to_intptr (wrap (sizeof_header + size)) ≠ 0).
      { rewrite grow_argument; [unfold sizeof_header; lia | lia | done]. }
      destruct Htop as [|Htop]; [done|].
      unfold heap_inv. simpl. split_and!; try done; try lia.
      exists (l ++ [brk s]). split; [done|].
      apply (appended_tiled s l (brk s) size (grown size s)); auto. lia.
Qed.

Lemma free_reg s l p h :
  registry s l → increasing l →
  p ≠ NULL → hdrs s !! (p - sizeof_header) = Some h →
  0 ≤ p + s_size h < 2 ^ 64 →
  ∃ s' l', free p s = Some (tt, s') ∧ free_post s l s' l'.
Proof.
  intros Hreg Hinc Hp Hh Hsum.
  destruct (free_cases s l p h Hreg Hinc Hp Hh Hsum)
    as [[_ E]|(_ & tmp & Hreg' & E)].
  - eexists _, l. split; [done|]. unfold free_post. split_and!; try done.
    + by apply registry_mark.
    + by left.
  - destruct (detached_fields tmp s) as (_ & ? & ? & ?).
    eexists _, (removelast l). split; [done|]. unfold free_post.
    split_and!; try done.
    + by apply increasing_removelast.
    + by right.
Qed.

Lemma shrunk_top s l p h :
  heap_inv s → registry s l → p - sizeof_header ∈ l →
  hdrs s !! (p - sizeof_header) = Some h → p + s_size h = brk s →
  shrunk (s_size h) s = p - sizeof_header ∧
  ∃ l0, l = l0 ++ [p - sizeof_header] ∧
        tiled (hdrs s) (heap_lo s) l0 (p - sizeof_header).
Proof.
  intros Hinv Hreg Hin Hh Htop.
  destruct (heap_inv_registry _ _ Hinv Hreg)
    as (Ht & Hinc & Hlo & Hle & Hhi & Hhalf).
  destruct (tiled_bounds _ _ _ _ _ Ht Hin) as (h' & Hh' & Hs & Hlow & Hup).
  replace h' with h in * by congruence. split.
  - unfold shrunk, moved.
    rewrite (shrink_argument (s_size h)) by (unfold sizeof_header in *; lia).
    unfold sizeof_header in *.
    destruct (Z.eqb_spec (- (s_size h + 24)) 0); [lia|].
    destruct (Z.ltb_spec (brk s + - (s_size h + 24)) (heap_lo s)); [lia|].
    destruct (Z.ltb_spec 0 (- (s_size h + 24))); [lia|].
    destruct (Z.ltb_spec (brk s + - (s_size h + 24)) 0); [lia|].
    simpl. lia.
  - assert (Hlast : List.last l NULL = p - sizeof_header).
    { eapply tiled_top_last; eauto. unfold sizeof_header in *. lia. }
    destruct l as [|t l0] using rev_ind; [by apply elem_of_nil in Hin|].
    rewrite last_last in Hlast. subst t. exists l0. split; [done|].
    apply tiled_app in Ht as (mid & Ht0 & Ht1). simpl in Ht1.
    destruct Ht1 as [-> _]. done.
Qed.

Lemma free_heap_inv s l p s' :
  heap_inv s → registry s l → p ≠ NULL → p - sizeof_header ∈ l →
  free p s = Some (tt, s') → heap_inv s'.
Proof.
  intros Hinv Hreg Hp Hin Hfree.
  destruct (heap_inv_registry _ _ Hinv Hreg)
    as (Ht & Hinc & Hlo & Hle & Hhi & Hhalf).
  destruct (tiled_bounds _ _ _ _ _ Ht Hin) as (h & Hh & Hs & _).
  pose proof (block_end_small s l p h Hinv Hreg Hin Hh) as Hsum.
  destruct (free_cases s l p h Hreg Hinc Hp Hh Hsum)
    as [[_ E]|(Htop & tmp & Hreg' & E)].
  - rewrite E in Hfree. injection Hfree as <-.
    unfold heap_inv. simpl. split_and!; try done. exists l.
    split; [by apply registry_mark | by eapply tiled_update].
  - rewrite E in Hfree. injection Hfree as <-.
    destruct (shrunk_top s l p h) as (Etop & l0 & -> & Ht0); auto.
    destruct (detached_fields tmp s) as (_ & Elo & Ehi & _).
    rewrite removelast_last in Hreg'.
    unfold heap_inv. simpl. rewrite Elo, Ehi, Etop.
    pose proof (tiled_le _ _ _ _ Ht0).
    split_and!; try done; [unfold sizeof_header; lia|]. exists l0.
    split; [done|]. by apply detached_tiled.
Qed.

Lemma free_step s l p :
  heap_inv s → registry s l → p = NULL ∨ p - sizeof_header ∈ l →
  ∃ s' l', free p s = Some (tt, s') ∧ free_post s l s' l' ∧ heap_inv s'.
Proof.
  intros Hinv Hreg [->|Hin].
  - exists s, l. split; [done|]. unfold free_post. split_and!; try done.
    + by eapply heap_inv_registry.
    + by left.
  - destruct (heap_inv_registry _ _ Hinv Hreg) as (Ht & Hinc & Hlo & _).
    destruct (tiled_bounds _ _ _ _ _ Ht Hin) as (h & Hh & _ & Hlow & _).
    assert (Hp : p ≠ NULL) by (unfold NULL, sizeof_header in *; lia).
    pose proof (block_end_small s l p h Hinv Hreg Hin Hh) as Hsum.
    destruct (free_reg s l p h) as (s' & l' & E & Hpost); auto.
    exists s', l'. split_and!; try done. by eapply free_heap_inv.
Qed.

(** What [free] makes of the block it is given, and of every other
    registered block. *)
Lemma free_released s l p h s' :
  heap_inv s → registry s l → p - sizeof_header ∈ l →
  hdrs s !! (p - sizeof_header) = Some h →
  free p s = Some (tt, s') →
  ∃ l', registry s' l' ∧
    (p - sizeof_header ∉ l' ∨
     ∃ hp, hdrs s' !! (p - sizeof_header) = Some hp ∧ s_is_free hp = 1) ∧
    ∀ q hq, q ≠ p → q - sizeof_header ∈ l →
            hdrs s !! (q - sizeof_header) = Some hq →
            q - sizeof_header ∈ l' ∧
            ∃ hq', hdrs s' !! (q - sizeof_header) = Some hq' ∧
                   s_size hq' = s_size hq ∧ s_is_free hq' = s_is_free hq.
Proof.
  intros Hinv Hreg Hin Hh Hf.
  destruct (heap_inv_registry _ _ Hinv Hreg) as (Ht & Hinc & Hlo & _).
  destruct (tiled_bounds _ _ _ _ _ Ht Hin) as (? & _ & _ & Hlow & _).
  assert (Hp : p ≠ NULL) by (unfold NULL, sizeof_header in *; lia).
  pose proof (block_end_small s l p h Hinv Hreg Hin Hh) as Hsum.
  destruct (free_cases s l p h Hreg Hinc Hp Hh Hsum)
    as [[_ E]|(Htop & tmp & Hreg' & E)]; rewrite Hf in E; injection E as ->.
  - exists l. split; [by apply registry_mark|]. split.
    + right. eexists. simpl. rewrite lookup_insert_eq. done.
    + intros q hq Hne Hq Hhq. split; [done|]. exists hq. simpl.
      rewrite lookup_insert_ne by lia. done.
  - destruct (shrunk_top s l p h) as (_ & l0 & -> & _); auto.
    rewrite removelast_last in Hreg'. exists l0. split; [done|].
    apply increasing_NoDup, NoDup_app in Hinc as (_ & Hdis & _). split.
    + left. intros Hin0. apply (Hdis _ Hin0). by apply list_elem_of_singleton.
    + intros q hq Hne Hq Hhq. split.
      * apply elem_of_app in Hq as [|Hq]; [done|].
        apply list_elem_of_singleton in Hq. lia.
      * destruct (detached_lookup tmp s _ hq Hhq) as (h' & Hh' & Es & Ef).
        exists h'. done.
Qed.

(** ** [memset] and [memcpy] *)

Lemma memset_fold p v (m : gmap Z Z) (l : list Z) a :
  foldr (λ i acc, <[p + i := v]> acc) m l !! a =
    if bool_decide (a - p ∈ l) then Some v else m !! a.
Proof.
  induction l as [|i l IH]; [done|]. cbn [foldr].
  rewrite lookup_insert. destruct (decide (p + i = a)) as [E|E].
    + rewrite bool_decide_eq_true_2; [done|]. apply elem_of_cons. left. lia.
    + rewrite IH. apply (f_equal (λ b : bool, if b then Some v else m !! a)).
      apply bool_decide_ext. rewrite elem_of_cons.
      split; [auto | intros [?|?]; [lia | done]].
Qed.

Lemma memset_lookup p c n m i :
  0 ≤ i < n → memset p c n m !! (p + i) = Some (c mod 256).
Proof.
  intros Hi. unfold memset. rewrite memset_fold.
  rewrite bool_decide_eq_true_2; [done|]. apply elem_of_seqZ. lia.
Qed.

Lemma memset_other p c n m a :
  a < p ∨ p + n ≤ a → memset p c n m !! a = m !! a.
Proof.
  intros Ha. unfold memset. rewrite memset_fold.
  rewrite bool_decide_eq_false_2; [done|]. rewrite elem_of_seqZ. lia.
Qed.

Lemma memcpy_fold dst src (m0 m : gmap Z Z) (l : list Z) a :
  foldr (λ i acc, partial_alter (λ _, m0 !! (src + i)) (dst + i) acc) m l !! a =
    if bool_decide (a - dst ∈ l) then m0 !! (src + (a - dst)) else m !! a.
Proof.
  induction l as [|i l IH]; [done|]. cbn [foldr].
  rewrite lookup_partial_alter. destruct (decide (dst + i = a)) as [E|E].
    + rewrite bool_decide_eq_true_2; [|apply elem_of_cons; left; lia].
      f_equal. lia.
    + rewrite IH.
      apply (f_equal (λ b : bool, if b then m0 !! (src + (a - dst)) else m !! a)).
      apply bool_decide_ext. rewrite elem_of_cons.
      split; [auto | intros [?|?]; [lia | done]].
Qed.

Lemma memcpy_lookup dst src n m i :
  0 ≤ i < n → memcpy dst src n m !! (dst + i) = m !! (src + i).
Proof.
  intros Hi. unfold memcpy. rewrite memcpy_fold.
  rewrite bool_decide_eq_true_2; [f_equal; lia|]. apply elem_of_seqZ. lia.
Qed.

Lemma memcpy_other dst src n m a :
  a < dst ∨ dst + n ≤ a → memcpy dst src n m !! a = m !! a.
Proof.
  intros Ha. unfold memcpy. rewrite memcpy_fold.
  rewrite bool_decide_eq_false_2; [done|]. rewrite elem_of_seqZ. lia.
Qed.

(** ** The equations of [calloc] and [realloc] *)

Lemma calloc_check num nsize :
  0 < num < 2 ^ 64 → 0 < nsize < 2 ^ 64 →
  (nsize =? wrap (num * nsize) / num) = (num * nsize <? 2 ^ 64).
Proof.
  intros Hn Hs. destruct (Z.ltb_spec (num * nsize) (2 ^ 64)) as [H|H].
  - rewrite wrap_small by nia. rewrite Z.mul_comm, Z.div_mul by lia.
    apply Z.eqb_refl.
  - apply Z.eqb_neq. intros E.
    assert (wrap (num * nsize) / num < nsize); [|lia].
    apply Z.div_lt_upper_bound; [lia|].
    pose proof (Z.mod_pos_bound (num * nsize) (2 ^ 64)). unfold wrap. lia.
Qed.

Lemma calloc_zero num nsize s :
  num = 0 ∨ nsize = 0 → calloc num nsize s = Some (NULL, s).
Proof.
  intros H. unfold calloc.
  destruct (Z.eqb_spec num 0), (Z.eqb_spec nsize 0); simpl; try done. lia.
Qed.

Lemma calloc_overflow num nsize s :
  0 < num < 2 ^ 64 → 0 < nsize < 2 ^ 64 → 2 ^ 64 ≤ num * nsize →
  calloc num nsize s = Some (NULL, s).
Proof.
  intros Hn Hs Ho. unfold calloc.
  destruct (Z.eqb_spec num 0), (Z.eqb_spec nsize 0); simpl; try lia.
  rewrite calloc_check by done.
  destruct (Z.ltb_spec (num * nsize) (2 ^ 64)); [lia | done].
Qed.

Lemma calloc_malloc num nsize s :
  0 < num < 2 ^ 64 → 0 < nsize < 2 ^ 64 → num * nsize < 2 ^ 64 →
  calloc num nsize s =
    match malloc (num * nsize) s with
    | Some (r, s1) =>
        if r =? NULL then Some (NULL, s1)
        else Some (r, set_bytes (memset r 0 (num * nsize) (bytes s1)) s1)
    | None => None
    end.
Proof.
  intros Hn Hs Ho. unfold calloc.
  destruct (Z.eqb_spec num 0), (Z.eqb_spec nsize 0); simpl; try lia.
  rewrite calloc_check by done.
  destruct (Z.ltb_spec (num * nsize) (2 ^ 64)); [|lia]. simpl.
  rewrite wrap_small by nia. unfold bind at 1.
  destruct (malloc (num * nsize) s) as [[r s1]|]; [|done].
  by destruct (r =? NULL).
Qed.

Lemma realloc_malloc p size s :
  p = NULL ∨ size = 0 → realloc p size s = malloc size s.
Proof.
  intros H. unfold realloc.
  destruct (Z.eqb_spec p NULL), (Z.eqb_spec size 0); simpl; try done. lia.
Qed.

Lemma realloc_fits p size s h :
  p ≠ NULL → size ≠ 0 → hdrs s !! (p - sizeof_header) = Some h →
  size ≤ s_size h → realloc p size s = Some (p, s).
Proof.
  intros Hp Hs Hh Hle. unfold realloc.
  destruct (Z.eqb_spec p NULL), (Z.eqb_spec size 0); simpl; try done.
  monad. rewrite Hh. destruct (Z.leb_spec size (s_size h)); [done | lia].
Qed.

Lemma realloc_moves p size s h r s1 :
  p ≠ NULL → size ≠ 0 →
  hdrs s !! (p - sizeof_header) = Some h → s_size h < size →
  malloc size s = Some (r, s1) →
  realloc p size s =
    if r =? NULL then Some (NULL, s1)
    else
      match hdrs s1 !! (p - sizeof_header) with
      | Some h1 =>
          match free p (set_bytes (memcpy r p (s_size h1) (bytes s1)) s1) with
          | Some (_, s') => Some (r, s')
          | None => None
          end
      | None => None
      end.
Proof.
  intros Hp Hs Hh Hlt Hm. unfold realloc.
  destruct (Z.eqb_spec p NULL); [done|].
  destruct (Z.eqb_spec size 0); [done|]. simpl.
  unfold bind at 1, load at 1. monad. rewrite Hh.
  destruct (Z.leb_spec size (s_size h)); [lia|].
  rewrite Hm. destruct (Z.eqb_spec r NULL) as [->|_]; simpl; [done|].
  destruct (hdrs s1 !! (p - sizeof_header)) as [h1|]; [|done]. done.
Qed.

(** ** The operations on a well-formed heap *)

Lemma heap_inv_set_bytes m s : heap_inv s → heap_inv (set_bytes m s).
Proof. done. Qed.

Lemma allocated_bounds s l p :
  heap_inv s → registry s l → p - sizeof_header ∈ l →
  p ≠ NULL ∧ ∃ h, hdrs s !! (p - sizeof_header) = Some h ∧ 0 < s_size h.
Proof.
  intros Hinv Hreg Hin.
  destruct (heap_inv_registry _ _ Hinv Hreg) as (Ht & _ & Hlo & _).
  destruct (tiled_bounds _ _ _ _ _ Ht Hin) as (h & Hh & Hs & Hlow & _).
  split; [unfold NULL, sizeof_header in *; lia | eauto].
Qed.

(** The growing path of [realloc]: a new block, the copy, the release. *)
Lemma realloc_grow_step s l p h size :
  heap_inv s → registry s l → allocated s l p →
  hdrs s !! (p - sizeof_header) = Some h → size_t size → fits_intptr size →
  s_size h < size →
  ∃ r s1 l1,
    malloc size s = Some (r, s1) ∧ malloc_post s l size r s1 l1 ∧
    (r = NULL → realloc p size s = Some (NULL, s)) ∧
    (r ≠ NULL →
       let s2 := set_bytes (memcpy r p (s_size h) (bytes s1)) s1 in
       ∃ s' l', free p s2 = Some (tt, s') ∧ free_post s2 l1 s' l' ∧
                realloc p size s = Some (r, s') ∧ heap_inv s').
Proof.
  intros Hinv Hreg [Hin (h0 & Hh0 & Hused)] Hh Hsz Hfits Hlt.
  replace h0 with h in * by congruence. clear Hh0.
  destruct (allocated_bounds _ _ _ Hinv Hreg Hin) as (Hp & h' & Hh' & Hpos).
  replace h' with h in * by congruence. clear Hh'.
  assert (Hs : size ≠ 0) by lia.
  destruct (malloc_step s l size Hinv Hreg Hsz Hfits)
    as (r & s1 & l1 & Hm & Hpost).
  exists r, s1, l1. split; [done|]. split; [done|].
  pose proof (realloc_moves p size s h r s1 Hp Hs Hh Hlt Hm) as Hre.
  destruct Hpost as (Hreg1 & Hinc1 & Hl1 & Hnull & _ & _ & _ & _ & Hkeep & _ & Hfit).
  split.
  - intros ->. rewrite Hre. simpl. by rewrite Hnull.
  - intros Hr. destruct (Z.eqb_spec r NULL); [done|].
    destruct (Hkeep _ _ Hin Hh Hused) as (_ & h1 & Hh1 & Hs1 & Hf1).
    rewrite Hh1, Hs1 in Hre. simpl.
    set (s2 := set_bytes (memcpy r p (s_size h) (bytes s1)) s1) in *.
    assert (Hinv2 : heap_inv s2) by (apply heap_inv_set_bytes; auto).
    assert (Hin1 : p - sizeof_header ∈ l1).
    { destruct Hl1 as [->| ->]; [done|]. apply elem_of_app. by left. }
    pose proof (block_end_small s2 l1 p h1 Hinv2 Hreg1 Hin1 Hh1) as Hsum.
    destruct (free_reg s2 l1 p h1) as (s' & l' & Hfree & Hpost'); auto.
    exists s', l'. rewrite Hfree in Hre. split_and!; try done.
    by apply (free_heap_inv s2 l1 p s').
Qed.

Lemma malloc_reg_step s l size r s' l' :
  heap_inv s → registry s l → malloc_post s l size r s' l' → reg_step l l'.
Proof.
  intros Hinv Hreg (_ & _ & [->| ->] & _); [by left|]. right. left.
  exists (brk s). split; [done|].
  destruct (heap_inv_registry _ _ Hinv Hreg) as (Ht & _).
  by eapply tiled_below.
Qed.

Lemma run_step s l o :
  heap_inv s → registry s l → op_ok s l o → op_fits o →
  ∃ r s' l',
    run o s = Some (r, s') ∧ registry s' l' ∧ increasing l' ∧
    reg_step l l' ∧ heap_inv s'.
Proof.
  intros Hinv Hreg Hok Hfits.
  destruct o as [size|p|num nsize|p size]; simpl in *.
  - destruct (malloc_step s l size Hinv Hreg Hok Hfits)
      as (r & s' & l' & E & Hpost).
    exists r, s', l'. pose proof (malloc_reg_step _ _ _ _ _ _ Hinv Hreg Hpost).
    destruct Hpost as (? & ? & _ & _ & _ & _ & _ & _ & _ & _ & ?).
    split_and!; auto.
  - destruct (free_step s l p Hinv Hreg) as (s' & l' & E & Hpost & Hinv').
    { destruct Hok as [|[? _]]; auto. }
    exists NULL, s', l'. unfold bind. rewrite E.
    destruct Hpost as (? & ? & [->| ->] & _); split_and!; try done.
    + by left.
    + right. by right.
  - destruct Hok as [Hn Hs].
    destruct (heap_inv_registry _ _ Hinv Hreg) as (_ & Hinc & _).
    assert (Hsame : ∃ r s' l', Some (NULL, s) = Some (r, s') ∧ registry s' l' ∧
              increasing l' ∧ reg_step l l' ∧ heap_inv s').
    { exists NULL, s, l. split_and!; try done. by left. }
    destruct (decide (num = 0 ∨ nsize = 0)) as [Hz|Hz].
    { by rewrite calloc_zero. }
    unfold size_t in *.
    destruct (Z.lt_ge_cases (num * nsize) (2 ^ 64)) as [Ho|Ho].
    + rewrite calloc_malloc by lia.
      destruct (malloc_step s l (num * nsize) Hinv Hreg)
        as (r & s' & l' & E & Hpost); [unfold size_t; nia | auto |].
      pose proof (malloc_reg_step _ _ _ _ _ _ Hinv Hreg Hpost).
      destruct Hpost as (? & ? & _ & _ & _ & _ & _ & _ & _ & _ & Hinv').
      specialize (Hinv' (Hfits Ho)).
      rewrite E. destruct (r =? NULL).
      * exists NULL, s', l'. split_and!; auto.
      * eexists r, _, l'. split; [done|]. split_and!; auto.
    + by rewrite calloc_overflow by lia.
  - destruct Hok as [Hsz Hp].
    destruct (heap_inv_registry _ _ Hinv Hreg) as (_ & Hinc & _).
    destruct (decide (p = NULL ∨ size = 0)) as [Hz|Hz].
    { rewrite realloc_malloc by done.
      destruct (malloc_step s l size Hinv Hreg Hsz Hfits)
        as (r & s' & l' & E & Hpost).
      exists r, s', l'. pose proof (malloc_reg_step _ _ _ _ _ _ Hinv Hreg Hpost).
      destruct Hpost as (? & ? & _ & _ & _ & _ & _ & _ & _ & _ & ?).
      split_and!; auto. }
    destruct Hp as [|Halloc]; [tauto|].
    pose proof Halloc as [Hin (h & Hh & _)].
    destruct (allocated_bounds _ _ _ Hinv Hreg Hin) as (Hp & _).
    destruct (Z.le_gt_cases size (s_size h)) as [Hle|Hgt].
    { rewrite (realloc_fits p size s h) by tauto.
      exists p, s, l. split_and!; try done. by left. }
    destruct (realloc_grow_step s l p h size)
      as (r & s1 & l1 & E & Hpost & Hnull & Hmove); auto.
    pose proof (malloc_reg_step _ _ _ _ _ _ Hinv Hreg Hpost) as Hstep.
    destruct (decide (r = NULL)) as [Hr|Hr].
    { rewrite (Hnull Hr). exists NULL, s, l. split_and!; try done. by left. }
    destruct (Hmove Hr) as (s' & l' & _ & Hpost' & -> & Hfit).
    exists r, s', l'. destruct Hpost' as (? & ? & Hl' & _).
    split_and!; try done.
    destruct Hl' as [->| ->]; [done|].
    destruct Hstep as [->|[(b & -> & _)| ->]].
    + right. by right.
    + rewrite removelast_last. by left.
    + destruct Hpost as (_ & _ & [E1|E1] & _).
      * rewrite E1. right. by right.
      * rewrite E1, removelast_last.
        apply (f_equal length) in E1. rewrite length_app in E1. simpl in E1.
        destruct l as [|x l0] using rev_ind; [by left|].
        rewrite removelast_last, length_app in E1. simpl in E1. lia.
Qed.

(** * The claims *)

(** ** The example states *)

Example scenario_reached :
  (a1 <- malloc 64 ;; a2 <- malloc 128 ;; free a1 ;;; ret (a1, a2))
    (init_state 4096 8192) = Some ((4120, 4208), scenario_state).
Proof. vm_compute. reflexivity. Qed.

Example scenario_finish :
  (a3 <- malloc 50 ;; free 4208 ;;; ret a3) scenario_state =
    Some (4120, State 4096 4096
                  (<[4096 := Header 64 0 NULL]> (<[4184 := Header 128 0 NULL]> ∅))
                  ∅ 4184 4096 8192).
Proof. vm_compute. reflexivity. Qed.

Lemma init_state_inv lo hi : 0 < lo → lo ≤ hi → hi ≤ 2 ^ 63 →
  heap_inv (init_state lo hi).
Proof.
  intros. unfold heap_inv. simpl. split_and!; try done. by exists [].
Qed.

Lemma scenario_registry : registry scenario_state [4096; 4184].
Proof.
  split; [|done]. simpl. split_and!; try done.
  eexists. split; [reflexivity|]. simpl. split_and!; try done.
  eexists. split; [reflexivity|]. done.
Qed.

Lemma scenario_inv : heap_inv scenario_state.
Proof.
  unfold heap_inv. simpl. split_and!; try lia.
  exists [4096; 4184]. split; [apply scenario_registry|].
  simpl. split; [done|]. eexists. split; [reflexivity|]. simpl.
  split_and!; try done. eexists. split; [reflexivity|]. done.
Qed.

Lemma three_blocks_registry : registry three_blocks [4096; 4184; 4336].
Proof.
  split; [|done]. simpl. split_and!; try done.
  eexists. split; [reflexivity|]. simpl. split_and!; try done.
  eexists. split; [reflexivity|]. simpl. split_and!; try done.
  eexists. split; [reflexivity|]. done.
Qed.

Lemma three_blocks_inv : heap_inv three_blocks.
Proof.
  unfold heap_inv. simpl. split_and!; try lia.
  exists [4096; 4184; 4336]. split; [apply three_blocks_registry|].
  simpl. split; [done|]. eexists. split; [reflexivity|]. simpl.
  split_and!; try done. eexists. split; [reflexivity|]. simpl.
  split_and!; try done. eexists. split; [reflexivity|]. done.
Qed.

(** ** Allocate *)

(** C1: [malloc(0)] returns [NULL]; otherwise, when walking the registry
    from [head] the block at [a] is the first that is free and at least
    [size] bytes large, [malloc(size)] returns the payload address of [a]
    and clears its free flag: its size and its link, [head], [tail], the
    break and all other headers stay as they were (no split). *)
Theorem malloc_first_fit s l size pre a post h :
  registry s l → l = pre ++ a :: post →
  hdrs s !! a = Some h → s_is_free h ≠ 0 → size ≤ s_size h →
  (∀ b hb, b ∈ pre → hdrs s !! b = Some hb →
           s_is_free hb = 0 ∨ s_size hb < size) →
  malloc 0 s = Some (NULL, s) ∧
  (size ≠ 0 →
   malloc size s =
     Some (a + sizeof_header,
           set_hdrs (<[a := Header (s_size h) 0 (s_next h)]> (hdrs s)) s)).
Proof.
  intros [Hl _] -> Hh Hfree Hsz Hpre. split; [apply malloc_zero|]. intros Hs.
  assert (Hf : fits size h = true).
  { unfold fits. apply andb_true_iff. split.
    - by apply negb_true_iff, Z.eqb_neq.
    - by apply Z.leb_le. }
  assert (Ha : a ≠ NULL).
  { eapply lseg_lookup; [done|]. apply elem_of_app. right.
    apply elem_of_cons. by left. }
  apply (malloc_hit s size (pre ++ a :: post) a h); auto.
  apply (first_fit_split _ _ _ _ _ h); auto.
  - intros b hb Hb Hhb. unfold fits. apply andb_false_iff.
    destruct (Hpre b hb Hb Hhb) as [E|E].
    + left. rewrite E. done.
    + right. apply Z.leb_gt. done.
  - apply Forall_forall. intros b Hb. eapply lseg_lookup; [done|].
    apply elem_of_app. by left.
Qed.

Lemma malloc_first_fit_witness :
  malloc 0 three_blocks = Some (NULL, three_blocks) ∧
  (100 ≠ 0 →
   malloc 100 three_blocks =
     Some (4184 + sizeof_header,
           set_hdrs (<[4184 := Header 128 0 4336]> (hdrs three_blocks))
                    three_blocks)).
Proof.
  apply (malloc_first_fit three_blocks [4096; 4184; 4336] 100 [4096] 4184
           [4336] (Header 128 1 4336)).
  - apply three_blocks_registry.
  - reflexivity.
  - reflexivity.
  - simpl. lia.
  - simpl. lia.
  - intros b hb Hb Hhb. apply list_elem_of_singleton in Hb. subst b.
    vm_compute in Hhb. injection Hhb as <-. left. reflexivity.
Defined.

(** C8: when the scan finds no block and [sbrk] reports failure,
    [malloc] returns [NULL] and leaves the whole state as it was: [head],
    [tail], every header and the break. *)
Theorem malloc_out_of_memory s size s1 s2 :
  size ≠ 0 →
  get_free_block size s = Some (NULL, s1) →
  sbrk (to_intptr (wrap (sizeof_header + size))) s1 = Some (None, s2) →
  malloc size s = Some (NULL, s).
Proof.
  intros Hs Hscan Hbrk. unfold malloc.
  destruct (Z.eqb_spec size 0); [done|].
  unfold bind at 1. rewrite Hscan. simpl. unfold bind at 1. rewrite Hbrk.
  assert (E1 : s1 = s).
  { revert Hscan. unfold get_free_block. monad.
    destruct (get_free_block_loop _ _ _ _); [|done]. by intros [= _ <-]. }
  assert (E2 : s2 = s1).
  { revert Hbrk. unfold sbrk. destruct (_ =? 0); [done|].
    destruct (0 <? _).
    - destruct (_ || _); [|done]. by intros [= <-].
    - destruct (_ <? 0); [by intros [= <-]|]. by destruct (_ <? _). }
  unfold ret. by rewrite E2, E1.
Qed.

Lemma malloc_out_of_memory_witness :
  malloc 5000 scenario_state = Some (NULL, scenario_state).
Proof.
  apply (malloc_out_of_memory scenario_state 5000 scenario_state scenario_state).
  - lia.
  - vm_compute. reflexivity.
  - vm_compute. reflexivity.
Defined.

(** ** Release *)

(** C2: [free(NULL)] does nothing.  For a registered block whose payload
    ends at the break, [free] unlinks the block (the block was the last of
    the registry, which loses it and is empty if there was no other) and
    lowers the break by [size + sizeof(header_t)].  In every other case
    [free] sets the free flag of the block and changes nothing else. *)
Theorem free_spec s l p h :
  heap_inv s → registry s l → p - sizeof_header ∈ l →
  hdrs s !! (p - sizeof_header) = Some h →
  free NULL s = Some (tt, s) ∧
  (p + s_size h = brk s →
   (∃ s' l0,
      free p s = Some (tt, s') ∧
      l = l0 ++ [p - sizeof_header] ∧ registry s' l0 ∧
      (p - sizeof_header ∉ l0) ∧
      (l0 = [] → head s' = NULL ∧ tail s' = NULL) ∧
      brk s' = brk s - (s_size h + sizeof_header))) ∧
  (p + s_size h ≠ brk s →
   free p s =
     Some (tt, set_hdrs (<[p - sizeof_header := Header (s_size h) 1 (s_next h)]>
                           (hdrs s)) s)).
Proof.
  intros Hinv Hreg Hin Hh. split; [apply free_null|].
  destruct (heap_inv_registry _ _ Hinv Hreg) as (Ht & Hinc & _).
  destruct (allocated_bounds _ _ _ Hinv Hreg Hin) as (Hp & _).
  pose proof (block_end_small s l p h Hinv Hreg Hin Hh) as Hsum.
  destruct (free_cases s l p h Hreg Hinc Hp Hh Hsum)
    as [[Hne E]|(Htop & tmp & Hreg' & E)].
  - split; [done|]. intros _. exact E.
  - split; [|done]. intros _.
    destruct (shrunk_top s l p h) as (Etop & l0 & -> & Ht0); auto.
    rewrite removelast_last in Hreg'. rewrite Etop in E.
    eexists _, l0. split; [exact E|]. split_and!; try done.
    + apply increasing_NoDup, NoDup_app in Hinc as (_ & Hdis & _).
      intros Hin0. apply (Hdis _ Hin0). by apply list_elem_of_singleton.
    + intros ->. by apply registry_empty in Hreg'.
    + simpl. lia.
Qed.

Lemma free_spec_witness :
  free NULL three_blocks = Some (tt, three_blocks) ∧
  (4360 + 16 = brk three_blocks →
   (∃ s' l0,
      free 4360 three_blocks = Some (tt, s') ∧
      [4096; 4184; 4336] = l0 ++ [4360 - sizeof_header] ∧ registry s' l0 ∧
      (4360 - sizeof_header ∉ l0) ∧
      (l0 = [] → head s' = NULL ∧ tail s' = NULL) ∧
      brk s' = brk three_blocks - (16 + sizeof_header))) ∧
  (4360 + 16 ≠ brk three_blocks →
   free 4360 three_blocks =
     Some (tt, set_hdrs (<[4360 - sizeof_header := Header 16 1 NULL]>
                           (hdrs three_blocks)) three_blocks)).
Proof.
  apply (free_spec three_blocks [4096; 4184; 4336] 4360 (Header 16 0 NULL)).
  - apply three_blocks_inv.
  - apply three_blocks_registry.
  - vm_compute. repeat constructor.
  - reflexivity.
Defined.

(** ** AllocateZeroed *)



(** ** Reallocate *)

(** C5: for a pointer that is not [NULL] and a size that is not zero and
    that the recorded size covers, [realloc] returns the pointer and
    leaves the whole state, payload bytes included, as it was. *)
Theorem realloc_in_place p size s h :
  p ≠ NULL → hdrs s !! (p - sizeof_header) = Some h →
  0 < size ≤ s_size h →
  realloc p size s = Some (p, s).
Proof.
  intros Hp Hh [H0 Hle]. unfold realloc.
  destruct (Z.eqb_spec p NULL); [done|].
  destruct (Z.eqb_spec size 0); [lia|]. simpl.
  monad. rewrite Hh. destruct (Z.leb_spec size (s_size h)); [done | lia].
Qed.

Lemma realloc_in_place_witness :
  realloc 4208 100 scenario_state = Some (4208, scenario_state).
Proof.
  apply (realloc_in_place 4208 100 scenario_state (Header 128 0 NULL)).
  - unfold NULL. lia.
  - reflexivity.
  - simpl. lia.
Defined.

(** C7: with a [NULL] pointer or a size of zero, [realloc] is [malloc]:
    the same result and the same state. *)
Theorem realloc_as_malloc p size s :
  p = NULL ∨ size = 0 → realloc p size s = malloc size s.
Proof.
  intros [-> | ->]; unfold realloc.
  - reflexivity.
  - by rewrite orb_true_r.
Qed.

Lemma realloc_as_malloc_witness :
  realloc NULL 32 scenario_state = malloc 32 scenario_state ∧
  realloc 4208 0 scenario_state = malloc 0 scenario_state.
Proof.
  split.
  - apply (realloc_as_malloc NULL 32 scenario_state). left. reflexivity.
  - apply (realloc_as_malloc 4208 0 scenario_state). right. reflexivity.
Defined.



(** ** Well-formed heaps *)

(** X13: for a request that, with its header, is a positive [intptr_t],
    the region that [malloc] returns lies in the heap below the break,
    belongs to a registered block in use that is large enough, and is
    disjoint from every other registered block, header and payload. *)
Lemma malloc_region s l size p s' :
  heap_inv s → registry s l → size_t size → fits_intptr size →
  malloc size s = Some (p, s') → p ≠ NULL →
  heap_inv s' ∧
  ∃ l' h,
    registry s' l' ∧ p - sizeof_header ∈ l' ∧
    hdrs s' !! (p - sizeof_header) = Some h ∧ s_is_free h = 0 ∧
    size ≤ s_size h ∧
    heap_lo s' ≤ p - sizeof_header ∧ p + size ≤ brk s' ∧
    ∀ q hq, q - sizeof_header ∈ l' → q ≠ p →
            hdrs s' !! (q - sizeof_header) = Some hq →
            p + size ≤ q - sizeof_header ∨ q + s_size hq ≤ p - sizeof_header.
Proof.
  intros Hinv Hreg Hsz Hfits Hm Hp.
  destruct (malloc_step s l size Hinv Hreg Hsz Hfits)
    as (r & s1 & l' & E & Hpost).
  rewrite Hm in E. injection E as <- <-.
  destruct Hpost as (Hreg' & _ & _ & _ & Hnew & _ & _ & _ & _ & _ & Hinv').
  specialize (Hinv' Hfits). split; [done|].
  destruct (Hnew Hp) as (Hin & h & Hh & Hle & Hused).
  destruct (heap_inv_registry _ _ Hinv' Hreg') as (Ht & _).
  destruct (tiled_bounds _ _ _ _ _ Ht Hin) as (h' & Hh' & _ & Hlow & Hup).
  replace h' with h in * by congruence.
  exists l', h. split_and!; try done.
  - unfold sizeof_header in *. lia.
  - intros q hq Hq Hne Hhq.
    destruct (tiled_disjoint _ _ _ _ _ _ h hq Ht Hin Hq) as [H|H]; auto.
    + unfold sizeof_header. lia.
    + left. unfold sizeof_header in *. lia.
    + right. unfold sizeof_header in *. lia.
Qed.

Lemma registry_consistent s l : registry s l → head_tail_consistent s.
Proof.
  intros [Hl Ht]. unfold head_tail_consistent.
  destruct l as [|t l0] using rev_ind; [|clear IHl0].
  - simpl in *. rewrite Hl, Ht. done.
  - rewrite last_last in Ht. apply lseg_app in Hl as (r & Hl0 & Hr).
    simpl in Hr. destruct Hr as (-> & Hnn & ht & Hht & Hnext).
    assert (Hhd : head s ≠ NULL).
    { destruct l0 as [|x l0]; simpl in Hl0; [congruence|].
      destruct Hl0 as (-> & ? & _). done. }
    rewrite Ht. split; [done|]. intros _. eauto.
Qed.

Lemma registry_snoc s l b :
  registry s (l ++ [b]) →
  tail s = b ∧ (l = [] → head s = b) ∧
  (l ≠ [] →
   head s = List.hd NULL l ∧
   ∃ ht, hdrs s !! List.last l NULL = Some ht ∧ s_next ht = b).
Proof.
  intros [Hl Ht]. rewrite last_last in Ht. split; [done|]. split.
  - intros ->. simpl in Hl. tauto.
  - intros Hne. split.
    + rewrite (lseg_first _ _ _ _ Hl). by destruct l.
    + destruct l as [|t l0] using rev_ind; [done|]. rewrite last_last.
      rewrite <- app_assoc in Hl. apply lseg_app in Hl as (r & _ & Hr).
      simpl in Hr. destruct Hr as (-> & _ & ht & Hht & Hn & _). eauto.
Qed.

(** X14: on a well-formed heap the registry is in strictly increasing
    address order, and every operation, given pointers that the allocator
    handed out and a size that with the header is a positive [intptr_t],
    returns and leaves it so.  The registry is unchanged, loses its last
    entry, or gains one block [b] at its end: [b] lies above all other
    blocks, is the new [tail], is the [head] when the registry was empty,
    and is otherwise what the old [tail] links to.  The heap stays well
    formed. *)
Lemma run_keeps_address_order s l o :
  heap_inv s → registry s l → op_ok s l o → op_fits o →
  increasing l ∧
  ∃ r s' l',
    run o s = Some (r, s') ∧ registry s' l' ∧ increasing l' ∧
    (l' = l ∨ l' = removelast l ∨
     ∃ b, l' = l ++ [b] ∧ Forall (λ a, a < b) l ∧ tail s' = b ∧
          (l = [] → head s' = b) ∧
          (l ≠ [] → head s' = head s ∧
                    ∃ ht, hdrs s' !! tail s = Some ht ∧ s_next ht = b)) ∧
    heap_inv s'.
Proof.
  intros Hinv Hreg Hok Hfits.
  destruct (heap_inv_registry _ _ Hinv Hreg) as (_ & Hinc & _).
  split; [done|].
  destruct (run_step s l o Hinv Hreg Hok Hfits)
    as (r & s' & l' & E & Hreg' & Hinc' & Hstep & Hfit).
  exists r, s', l'. split_and!; try done.
  destruct Hstep as [->|[(b & -> & Hb)| ->]]; [by left | | right; by left].
  right. right. exists b.
  destruct (registry_snoc _ _ _ Hreg') as (Ht & Hemp & Hne).
  split_and!; try done. intros Hl. destruct (Hne Hl) as (Hhd & ht & Hht & Hn).
  destruct Hreg as [Hl0 Htl]. split.
  - rewrite Hhd. symmetry. apply (lseg_first _ _ _ _ Hl0).
  - rewrite Htl. eauto.
Qed.

Example run_keeps_address_order_example :
  increasing [4096; 4184; 4336] ∧
  ∃ r s' l',
    run (Malloc 500) three_blocks = Some (r, s') ∧ registry s' l' ∧
    increasing l' ∧
    (l' = [4096; 4184; 4336] ∨ l' = removelast [4096; 4184; 4336] ∨
     ∃ b, l' = [4096; 4184; 4336] ++ [b] ∧
          Forall (λ a, a < b) [4096; 4184; 4336] ∧ tail s' = b ∧
          ([4096; 4184; 4336] = [] → head s' = b) ∧
          ([4096; 4184; 4336] ≠ [] →
           head s' = head three_blocks ∧
           ∃ ht, hdrs s' !! tail three_blocks = Some ht ∧ s_next ht = b)) ∧
    heap_inv s'.
Proof.
  apply (run_keeps_address_order three_blocks [4096; 4184; 4336] (Malloc 500)).
  - apply three_blocks_inv.
  - apply three_blocks_registry.
  - simpl. unfold size_t. lia.
  - simpl. unfold fits_intptr, sizeof_header. lia.
Defined.

(** X15: on a well-formed heap [head] and [tail] are consistent, and
    every operation, given pointers that the allocator handed out and a
    size that with the header is a positive [intptr_t], returns and leaves
    them so: [head] is [NULL] exactly when [tail] is, [tail] is reached
    from [head] along the [next] links, and the [next] link of [tail] is
    [NULL].  The heap stays well formed. *)
Lemma run_keeps_head_tail s l o :
  heap_inv s → registry s l → op_ok s l o → op_fits o →
  head_tail_consistent s ∧
  ∃ r s',
    run o s = Some (r, s') ∧ head_tail_consistent s' ∧ heap_inv s'.
Proof.
  intros Hinv Hreg Hok Hfits. split; [by eapply registry_consistent|].
  destruct (run_step s l o Hinv Hreg Hok Hfits)
    as (r & s' & l' & E & Hreg' & _ & _ & Hfit).
  exists r, s'. split_and!; try done. by eapply registry_consistent.
Qed.

Example run_keeps_head_tail_example :
  head_tail_consistent three_blocks ∧
  ∃ r s',
    run (Free 4360) three_blocks = Some (r, s') ∧ head_tail_consistent s' ∧
    heap_inv s'.
Proof.
  apply (run_keeps_head_tail three_blocks [4096; 4184; 4336] (Free 4360)).
  - apply three_blocks_inv.
  - apply three_blocks_registry.
  - simpl. right. split; [vm_compute; repeat constructor|].
    exists (Header 16 0 NULL). split; reflexivity.
  - simpl. exact I.
Defined.

(** Every state reached through requests that fit is well formed. *)
Lemma reachable_heap_inv lo hi s :
  0 < lo → lo ≤ hi → hi ≤ 2 ^ 63 → reachable lo hi s → heap_inv s.
Proof.
  intros Hlo Hle Hhi. induction 1 as [|s l o r s' _ IH Hreg Hok Hfit Hrun].
  - by apply init_state_inv.
  - destruct (run_step s l o IH Hreg Hok Hfit)
      as (r' & s'' & _ & E & _ & _ & _ & H).
    rewrite Hrun in E. injection E as _ <-. auto.
Qed.

(** ** Requests that wrap *)

(** A request of [SIZE_MAX - sizeof(header_t) + 1] bytes or more: the sum
    with the header wraps, [sbrk] grants the few bytes that are left of
    it, and the block that [malloc] returns starts above the new break. *)
Lemma malloc_wraps s l size :
  registry s l → first_fit (hdrs s) size l = NULL →
  2 ^ 64 - sizeof_header ≤ size < 2 ^ 64 →
  heap_lo s ≤ brk s → brk s + (size + sizeof_header - 2 ^ 64) ≤ heap_hi s →
  ∃ s', malloc size s = Some (brk s + sizeof_header, s') ∧
        brk s' = brk s + (size + sizeof_header - 2 ^ 64) ∧
        brk s' < brk s + sizeof_header.
Proof.
  intros Hreg Hfit Hsz Hlo Hhi.
  assert (Earg : to_intptr (wrap (sizeof_header + size)) =
                 size + sizeof_header - 2 ^ 64).
  { unfold wrap, sizeof_header in *.
    replace ((24 + size) mod 2 ^ 64) with (size + 24 - 2 ^ 64).
    - apply to_intptr_small. lia.
    - apply Z.mod_unique with (q := 1); lia. }
  exists (appended (brk s) size (brk s + (size + sizeof_header - 2 ^ 64)) s).
  split.
  - destruct Hreg as [Hl Ht]. apply (malloc_grow s size l); auto.
    + unfold sizeof_header in *. lia.
    + rewrite Earg.
      destruct (decide (size + sizeof_header - 2 ^ 64 = 0)) as [E|E].
      * rewrite E, Z.add_0_r, set_brk_same. apply sbrk_zero.
      * apply sbrk_move; unfold sizeof_header in *; lia.
    + by apply (registry_tail_lookup s l).
  - simpl. unfold sizeof_header in *. lia.
Qed.

Lemma one_block_reached : malloc 64 fresh_heap = Some (4120, one_block).
Proof. vm_compute. reflexivity. Qed.

Lemma one_block_inv : heap_inv one_block.
Proof.
  unfold heap_inv. simpl. split_and!; try lia. exists [4096].
  split; [split; [|done]|]; simpl; split_and!; try done;
    eexists; (split; [reflexivity|]); done.
Qed.

Lemma wrapped_once_reached :
  malloc (SIZE_MAX - 23) one_block = Some (4208, wrapped_once).
Proof. vm_compute. reflexivity. Qed.

Lemma wrapped_twice_reached :
  malloc 8 wrapped_once = Some (4208, wrapped_twice).
Proof. vm_compute. reflexivity. Qed.

Lemma wrapped_once_registry : registry wrapped_once [4096; 4184].
Proof.
  split; [|done]. simpl. split_and!; try done.
  eexists. split; [reflexivity|]. simpl. split_and!; try done.
  eexists. split; [reflexivity|]. done.
Qed.

Lemma wrapped_twice_cycle l : ¬ lseg (hdrs wrapped_twice) 4184 l NULL.
Proof.
  induction l as [|a l IH]; simpl.
  - unfold NULL. lia.
  - intros (<- & _ & h & Hh & Hl). vm_compute in Hh. injection Hh as <-.
    simpl in Hl. auto.
Qed.

(** C3: on the well-formed heap with one block of 64 bytes and the break
    at 4184, [malloc(SIZE_MAX - 23)] adds the header size to the request,
    the sum wraps to 0, [sbrk(0)] grants nothing, and the call still
    returns 4208 for a block in use of [SIZE_MAX - 23] bytes: the region
    lies above the break, which is still 4184.  The next call,
    [malloc(8)], returns the same address 4208 while that block is in
    use. *)
Theorem malloc_overflow_same_address :
  malloc 64 fresh_heap = Some (4120, one_block) ∧ heap_inv one_block ∧
  malloc (SIZE_MAX - 23) one_block = Some (4208, wrapped_once) ∧
  brk wrapped_once = 4184 ∧
  allocated wrapped_once [4096; 4184] 4208 ∧
  hdrs wrapped_once !! (4208 - sizeof_header) = Some (Header (SIZE_MAX - 23) 0 NULL) ∧
  malloc 8 wrapped_once = Some (4208, wrapped_twice).
Proof.
  split; [apply one_block_reached|]. split; [apply one_block_inv|].
  split; [apply wrapped_once_reached|]. split; [reflexivity|].
  split; [|split; [reflexivity | apply wrapped_twice_reached]].
  split; [vm_compute; repeat constructor|].
  eexists. split; reflexivity.
Qed.

(** C9: after [malloc(64)] and [malloc(SIZE_MAX - 23)] on a fresh heap the
    registry is the blocks at 4096 and 4184, in increasing order, and the
    break is 4184.  [malloc(8)] then gets the address 4184 from [sbrk],
    writes the new header over the last entry and links the entry to
    itself: the header at 4184 has [next] 4184, so the blocks are not
    chained in strictly increasing order and no list from [head] ends in
    [NULL]; the walk of a later call does not end. *)
Theorem malloc_overflow_cyclic_registry :
  malloc 64 fresh_heap = Some (4120, one_block) ∧
  malloc (SIZE_MAX - 23) one_block = Some (4208, wrapped_once) ∧
  registry wrapped_once [4096; 4184] ∧ increasing [4096; 4184] ∧
  malloc 8 wrapped_once = Some (4208, wrapped_twice) ∧
  hdrs wrapped_twice !! 4096 = Some (Header 64 0 4184) ∧
  hdrs wrapped_twice !! 4184 = Some (Header 8 0 4184) ∧
  (¬ ∃ l, registry wrapped_twice l) ∧
  malloc 16 wrapped_twice = None.
Proof.
  split; [apply one_block_reached|].
  split; [apply wrapped_once_reached|].
  split; [apply wrapped_once_registry|].
  split; [repeat constructor; lia|].
  split; [apply wrapped_twice_reached|].
  split; [reflexivity|]. split; [reflexivity|]. split.
  - intros (l & Hl & _). destruct l as [|a l]; simpl in Hl.
    + unfold NULL in Hl. lia.
    + destruct Hl as (<- & _ & h & Hh & Hl). vm_compute in Hh.
      injection Hh as <-. by apply (wrapped_twice_cycle l).
  - vm_compute. reflexivity.
Qed.

(** C10: before the third call of that sequence [head] and [tail] are
    consistent; after it [tail] is 4184 and the [next] link of [tail] is
    4184, not [NULL]. *)
Theorem malloc_overflow_tail_self_link :
  malloc 64 fresh_heap = Some (4120, one_block) ∧
  malloc (SIZE_MAX - 23) one_block = Some (4208, wrapped_once) ∧
  head_tail_consistent wrapped_once ∧
  malloc 8 wrapped_once = Some (4208, wrapped_twice) ∧
  tail wrapped_twice = 4184 ∧
  hdrs wrapped_twice !! tail wrapped_twice = Some (Header 8 0 4184) ∧
  ¬ head_tail_consistent wrapped_twice.
Proof.
  split; [apply one_block_reached|].
  split; [apply wrapped_once_reached|].
  split; [apply (registry_consistent _ _ wrapped_once_registry)|].
  split; [apply wrapped_twice_reached|].
  split; [reflexivity|]. split; [reflexivity|].
  intros [_ H]. destruct H as (_ & h & Hh & Hn); [done|].
  vm_compute in Hh. injection Hh as <-. done.
Qed.

(** * Further properties of the code *)

(** ** The scan *)

Lemma first_fit_none m size l :
  none_fits m size l → Forall (λ a, is_Some (m !! a)) l →
  first_fit m size l = NULL.
Proof.
  intros Hnone. induction l as [|a l IH]; simpl; [done|]. intros Hall.
  apply Forall_cons in Hall as [[h Hh] Hall]. rewrite Hh.
  rewrite (Hnone a h); [|apply elem_of_cons; auto|done].
  apply IH; [|done]. intros b hb Hb. apply Hnone, elem_of_cons. auto.
Qed.

Lemma lseg_all_lookup m p l q :
  lseg m p l q → Forall (λ a, is_Some (m !! a)) l.
Proof.
  intros Hl. apply Forall_forall. intros a Ha. by eapply lseg_lookup.
Qed.

Lemma first_fit_spec m size p l :
  lseg m p l NULL →
  (first_fit m size l = NULL ∧ none_fits m size l) ∨
  ∃ pre post h,
    l = pre ++ first_fit m size l :: post ∧
    m !! first_fit m size l = Some h ∧ fits size h = true ∧
    none_fits m size pre.
Proof.
  revert p. induction l as [|a l IH]; intros p; simpl.
  - intros _. left. split; [done|]. intros a h Ha. by apply elem_of_nil in Ha.
  - intros (-> & Ha & h & Hh & Hl). rewrite Hh.
    destruct (fits size h) eqn:Hf.
    + right. exists [], l, h. split_and!; try done.
      intros b hb Hb. by apply elem_of_nil in Hb.
    + destruct (IH _ Hl) as [[E Hnone]|(pre & post & h' & E & Hh' & Hf' & Hnone)].
      * left. split; [done|]. intros b hb [->|Hb]%elem_of_cons Hhb.
        -- congruence.
        -- eauto.
      * right. exists (a :: pre), post, h'. split_and!; try done.
        -- simpl. by rewrite <- E.
        -- intros b hb [->|Hb]%elem_of_cons Hhb; [congruence | eauto].
Qed.

(** X1: on a registry that ends in [NULL], [get_free_block] returns and
    changes nothing.  It returns [NULL] exactly when no registered block is
    free and large enough; any other result is a registered block that is
    free and large enough, and no block before it in the list is. *)
Theorem get_free_block_finds s l size :
  registry s l →
  ∃ r,
    get_free_block size s = Some (r, s) ∧
    (r = NULL ↔ none_fits (hdrs s) size l) ∧
    (r ≠ NULL →
     ∃ pre post h,
       l = pre ++ r :: post ∧ hdrs s !! r = Some h ∧
       s_is_free h ≠ 0 ∧ size ≤ s_size h ∧
       none_fits (hdrs s) size pre).
Proof.
  intros [Hl _]. exists (first_fit (hdrs s) size l).
  split; [by apply get_free_block_spec|].
  destruct (first_fit_spec _ size _ _ Hl)
    as [[E Hnone]|(pre & post & h & E & Hh & Hf & Hnone)].
  - rewrite E. split; [done|]. done.
  - set (a := first_fit (hdrs s) size l) in *.
    assert (Hin : a ∈ l).
    { rewrite E. apply elem_of_app. right. apply elem_of_cons. by left. }
    assert (Hne : a ≠ NULL) by (by eapply lseg_lookup).
    split.
    + split; [done|]. intros Hall. rewrite (Hall a h Hin Hh) in Hf. done.
    + intros _. exists pre, post, h. split_and!; try done.
      * apply andb_true_iff in Hf as [Hf _].
        by apply negb_true_iff, Z.eqb_neq in Hf.
      * apply andb_true_iff in Hf as [_ Hf]. by apply Z.leb_le.
Qed.

Lemma get_free_block_finds_witness :
  ∃ r,
    get_free_block 100 three_blocks = Some (r, three_blocks) ∧
    (r = NULL ↔ none_fits (hdrs three_blocks) 100 [4096; 4184; 4336]) ∧
    (r ≠ NULL →
     ∃ pre post h,
       [4096; 4184; 4336] = pre ++ r :: post ∧
       hdrs three_blocks !! r = Some h ∧
       s_is_free h ≠ 0 ∧ 100 ≤ s_size h ∧
       none_fits (hdrs three_blocks) 100 pre).
Proof.
  apply (get_free_block_finds three_blocks [4096; 4184; 4336] 100).
  apply three_blocks_registry.
Defined.

(** ** Allocation on a well-formed heap *)

Lemma appended_wf s l size :
  heap_inv s → registry s l → 0 < size → fits_intptr size →
  brk s + sizeof_header + size ≤ heap_hi s →
  let s' := appended (brk s) size (brk s + sizeof_header + size) s in
  heap_inv s' ∧ registry s' (l ++ [brk s]) ∧
  hdrs s' !! brk s = Some (Header size 0 NULL).
Proof.
  intros Hinv Hreg Hs Hfits Hroom s'.
  destruct (heap_inv_registry _ _ Hinv Hreg)
    as (Ht & Hinc & Hlo & Hle & Hhi & Hhalf).
  pose proof (tiled_below _ _ _ _ Ht) as Hbelow.
  destruct (appended_registry s l (brk s) size (brk s + sizeof_header + size))
    as [Hreg' Hnew]; auto; [unfold NULL; lia|].
  split_and!; try done.
  unfold heap_inv. simpl. split_and!; try done.
  exists (l ++ [brk s]). split; [done|]. by apply appended_tiled.
Qed.

(** The three ways in which [malloc] ends on a well-formed heap. *)
Lemma malloc_outcome s l size :
  heap_inv s → registry s l → 0 < size → fits_intptr size →
  (∃ a h, a ∈ l ∧ hdrs s !! a = Some h ∧ fits size h = true ∧
          first_fit (hdrs s) size l = a ∧
          malloc size s =
            Some (a + sizeof_header,
                  set_hdrs (<[a := with_is_free 0 h]> (hdrs s)) s)) ∨
  (none_fits (hdrs s) size l ∧ brk s + sizeof_header + size ≤ heap_hi s ∧
   malloc size s =
     Some (brk s + sizeof_header,
           appended (brk s) size (brk s + sizeof_header + size) s)) ∨
  (none_fits (hdrs s) size l ∧ heap_hi s < brk s + sizeof_header + size ∧
   malloc size s = Some (NULL, s)).
Proof.
  intros Hinv Hreg Hs Hfits.
  destruct (heap_inv_registry _ _ Hinv Hreg)
    as (Ht & Hinc & Hlo & Hle & Hhi & Hhalf).
  pose proof Hreg as [Hl _].
  assert (Harg : to_intptr (wrap (sizeof_header + size)) = size + sizeof_header)
    by (apply grow_argument; [lia | done]).
  destruct (first_fit_spec _ size _ _ Hl)
    as [[E Hnone]|(pre & post & h & E & Hh & Hf & Hnone)].
  - right. destruct (Z.le_gt_cases (brk s + sizeof_header + size) (heap_hi s)).
    + left. split_and!; try done. apply (malloc_grow s size l); auto; [lia| |].
      * rewrite Harg.
        replace (brk s + sizeof_header + size)
          with (brk s + (size + sizeof_header)) by lia.
        apply sbrk_move; unfold sizeof_header in *; lia.
      * by apply (registry_tail_lookup s l).
    + right. split_and!; try done.
      apply (malloc_refused s size l); auto; [lia|].
      assert (Hpos : 0 ≤ to_intptr (wrap (sizeof_header + size)))
        by (rewrite Harg; unfold sizeof_header; lia).
      destruct (sbrk_cases (to_intptr (wrap (sizeof_header + size))) s Hpos)
        as [Hb|[_ [Hb|Hb]]]; [done| |]; rewrite Harg in Hb;
        unfold sizeof_header in *; lia.
  - left. set (a := first_fit (hdrs s) size l) in *.
    assert (Hin : a ∈ l).
    { rewrite E. apply elem_of_app. right. apply elem_of_cons. by left. }
    exists a, h. split_and!; try done.
    apply (malloc_hit s size l); auto; [lia|]. by eapply lseg_lookup.
Qed.

(** X2: on a well-formed heap without a free block that is large enough,
    and with room below the limit, [malloc(size)] returns the address
    [sizeof(header_t)] above the old break, without padding or alignment:
    the break rises by exactly [size + sizeof(header_t)], the new header
    holds [size], in use, no successor, and the block is the new last entry
    of the registry.  Payload bytes are not initialised. *)
Theorem malloc_extends s l size :
  heap_inv s → registry s l → 0 < size → fits_intptr size →
  none_fits (hdrs s) size l →
  brk s + sizeof_header + size ≤ heap_hi s →
  ∃ s',
    malloc size s = Some (brk s + sizeof_header, s') ∧
    brk s' = brk s + sizeof_header + size ∧
    hdrs s' !! brk s = Some (Header size 0 NULL) ∧
    registry s' (l ++ [brk s]) ∧ heap_inv s' ∧ bytes s' = bytes s.
Proof.
  intros Hinv Hreg Hs Hfits Hnone Hroom.
  destruct (appended_wf s l size) as (Hinv' & Hreg' & Hnew); auto.
  exists (appended (brk s) size (brk s + sizeof_header + size) s).
  split_and!; try done.
  destruct (malloc_outcome s l size)
    as [(a & h & Hin & Hh & Hf & _)|[(_ & _ & E)|(_ & Hno & _)]]; auto.
  - rewrite (Hnone a h Hin Hh) in Hf. done.
  - lia.
Qed.

Lemma malloc_extends_witness :
  ∃ s',
    malloc 500 scenario_state = Some (brk scenario_state + sizeof_header, s') ∧
    brk s' = brk scenario_state + sizeof_header + 500 ∧
    hdrs s' !! brk scenario_state = Some (Header 500 0 NULL) ∧
    registry s' ([4096; 4184] ++ [brk scenario_state]) ∧ heap_inv s' ∧
    bytes s' = bytes scenario_state.
Proof.
  apply (malloc_extends scenario_state [4096; 4184] 500).
  - apply scenario_inv.
  - apply scenario_registry.
  - lia.
  - unfold fits_intptr, sizeof_header. lia.
  - intros a h Ha Hh.
    apply elem_of_cons in Ha as [->|Ha];
      [|apply list_elem_of_singleton in Ha; subst a];
      vm_compute in Hh; injection Hh as <-; reflexivity.
  - simpl. unfold sizeof_header. lia.
Defined.

(** X3: on a well-formed heap [malloc] returns, and it returns [NULL]
    only for a size of zero or when no free block is large enough and the
    system limit leaves no room for the header and the payload; the state
    then is as before the call. *)
Theorem malloc_null_iff s l size :
  heap_inv s → registry s l → size_t size → fits_intptr size →
  ∃ r s',
    malloc size s = Some (r, s') ∧
    (r = NULL ↔
       size = 0 ∨
       (none_fits (hdrs s) size l ∧
        heap_hi s < brk s + sizeof_header + size)) ∧
    (r = NULL → s' = s).
Proof.
  intros Hinv Hreg [Hs0 _] Hfits.
  destruct (heap_inv_registry _ _ Hinv Hreg)
    as (Ht & Hinc & Hlo & Hle & Hhi & Hhalf).
  destruct (decide (size = 0)) as [->|Hs].
  { exists NULL, s. split; [apply malloc_zero|]. split; [|done].
    split; auto. }
  destruct (malloc_outcome s l size)
    as [(a & h & Hin & Hh & Hf & _ & E)|[(Hnone & Hroom & E)|(Hnone & Hno & E)]];
    auto; [lia| | |].
  - destruct (tiled_bounds _ _ _ _ _ Ht Hin) as (_ & _ & _ & Hlow & _).
    assert (Hr : a + sizeof_header ≠ NULL)
      by (unfold NULL, sizeof_header; lia).
    eexists _, _. split; [exact E|]. split; [|done].
    split; [done|]. intros [|[Hnone _]]; [done|].
    rewrite (Hnone a h Hin Hh) in Hf. done.
  - assert (Hr : brk s + sizeof_header ≠ NULL)
      by (unfold NULL, sizeof_header; lia).
    eexists _, _. split; [exact E|]. split; [|done].
    split; [done|]. intros [|[_ ?]]; [done | lia].
  - exists NULL, s. split; [exact E|]. split; [|done]. split; auto.
Qed.

Lemma malloc_null_iff_witness :
  ∃ r s',
    malloc 5000 scenario_state = Some (r, s') ∧
    (r = NULL ↔
       5000 = 0 ∨
       (none_fits (hdrs scenario_state) 5000 [4096; 4184] ∧
        heap_hi scenario_state < brk scenario_state + sizeof_header + 5000)) ∧
    (r = NULL → s' = scenario_state).
Proof.
  apply (malloc_null_iff scenario_state [4096; 4184] 5000).
  - apply scenario_inv.
  - apply scenario_registry.
  - unfold size_t. lia.
  - unfold fits_intptr, sizeof_header. lia.
Defined.

(** ** Release and allocation together *)

Lemma fits_same size h1 h2 :
  s_size h1 = s_size h2 → s_is_free h1 = s_is_free h2 →
  fits size h1 = fits size h2.
Proof. unfold fits. by intros -> ->. Qed.

Lemma malloc_keeps_wf s l size r s' :
  heap_inv s → registry s l → size_t size → fits_intptr size →
  malloc size s = Some (r, s') → heap_inv s'.
Proof.
  intros Hinv Hreg Hsz Hfits Hm.
  destruct (malloc_step s l size Hinv Hreg Hsz Hfits)
    as (r' & s'' & l' & E & Hpost).
  rewrite Hm in E. injection E as <- <-.
  destruct Hpost as (_ & _ & _ & _ & _ & _ & _ & _ & _ & _ & H). auto.
Qed.

(** X4: on a well-formed heap where no free block is large enough for
    [m], releasing a block in use of at least [m] bytes and then asking for
    [m] bytes returns the pointer that was released, whether the block was
    kept in the registry or handed back to the system. *)
Theorem free_then_malloc_reuses s l p h m :
  heap_inv s → registry s l → allocated s l p →
  hdrs s !! (p - sizeof_header) = Some h →
  0 < m ≤ s_size h → none_fits (hdrs s) m l →
  ∃ s1 s2,
    free p s = Some (tt, s1) ∧ malloc m s1 = Some (p, s2) ∧ heap_inv s2.
Proof.
  intros Hinv Hreg [Hin _] Hh [Hm0 Hmle] Hnone.
  destruct (heap_inv_registry _ _ Hinv Hreg)
    as (Ht & Hinc & Hlo & Hle & Hhi & Hhalf).
  destruct (allocated_bounds _ _ _ Hinv Hreg Hin) as (Hp & _).
  destruct (tiled_bounds _ _ _ _ _ Ht Hin) as (h0 & Hh0 & Hs & Hlow & Hup).
  replace h0 with h in * by congruence. clear Hh0.
  assert (Hfits : fits_intptr m)
    by (unfold fits_intptr, sizeof_header in *; lia).
  assert (Hsz : size_t m) by (unfold size_t, sizeof_header in *; lia).
  pose proof (block_end_small s l p h Hinv Hreg Hin Hh) as Hsum.
  destruct (free_cases s l p h Hreg Hinc Hp Hh Hsum)
    as [[Hne E]|(Htop & tmp & Hreg' & E)].
  - set (s1 := set_hdrs (<[p - sizeof_header := with_is_free 1 h]> (hdrs s)) s)
      in *.
    assert (Hinv1 : heap_inv s1) by (by eapply free_heap_inv).
    assert (Hreg1 : registry s1 l) by (by apply registry_mark).
    assert (Hmine : fits m (with_is_free 1 h) = true).
    { unfold fits. simpl. by apply Z.leb_le. }
    exists s1.
    destruct (malloc_outcome s1 l m)
      as [(a & h' & Ha & Hh' & Hf & _ & Em)|[(Hno & _)|(Hno & _)]]; auto.
    + destruct (decide (a = p - sizeof_header)) as [->|Hne'].
      * replace (p - sizeof_header + sizeof_header) with p in Em by lia.
        eexists. split_and!; try done. by eapply (malloc_keeps_wf s1 l m).
      * exfalso. simpl in Hh'. rewrite lookup_insert_ne in Hh' by done.
        rewrite (Hnone a h' Ha Hh') in Hf. done.
    + exfalso. rewrite (Hno (p - sizeof_header) (with_is_free 1 h)) in Hmine;
        [done | done | apply lookup_insert_eq].
    + exfalso. rewrite (Hno (p - sizeof_header) (with_is_free 1 h)) in Hmine;
        [done | done | apply lookup_insert_eq].
  - destruct (shrunk_top s l p h) as (Etop & l0 & -> & Ht0); auto.
    rewrite removelast_last in Hreg'. rewrite Etop in E.
    set (s1 := set_brk (p - sizeof_header) (detached tmp s)) in *.
    assert (Hinv1 : heap_inv s1) by (by eapply free_heap_inv).
    destruct (detached_fields tmp s) as (_ & Elo & Ehi & _).
    exists s1.
    destruct (malloc_outcome s1 l0 m)
      as [(a & h' & Ha & Hh' & Hf & _ & _)|[(_ & _ & Em)|(_ & Hno & _)]]; auto.
    + exfalso. assert (Hal : a ∈ l0 ++ [p - sizeof_header])
        by (apply elem_of_app; by left).
      destruct (tiled_bounds _ _ _ _ _ Ht Hal) as (ha & Hha & _).
      destruct (detached_lookup tmp s a ha Hha) as (ha' & Hha' & E1 & E2).
      simpl in Hh'. replace ha' with h' in * by congruence.
      rewrite (fits_same m h' ha E1 E2) in Hf.
      rewrite (Hnone a ha Hal Hha) in Hf. done.
    + simpl in Em.
      replace (p - sizeof_header + sizeof_header) with p in Em by lia.
      eexists. split_and!; try done. by eapply (malloc_keeps_wf s1 l0 m).
    + exfalso. simpl in Hno. rewrite Ehi in Hno. unfold sizeof_header in *. lia.
Qed.

Lemma free_then_malloc_reuses_witness :
  ∃ s1 s2,
    free 4208 scenario_state = Some (tt, s1) ∧ malloc 100 s1 = Some (4208, s2) ∧
    heap_inv s2.
Proof.
  apply (free_then_malloc_reuses scenario_state [4096; 4184] 4208
           (Header 128 0 NULL) 100).
  - apply scenario_inv.
  - apply scenario_registry.
  - split; [vm_compute; repeat constructor|].
    exists (Header 128 0 NULL). split; reflexivity.
  - reflexivity.
  - simpl. lia.
  - intros a h Ha Hh.
    apply elem_of_cons in Ha as [->|Ha];
      [|apply list_elem_of_singleton in Ha; subst a];
      vm_compute in Hh; injection Hh as <-; reflexivity.
Defined.

Lemma lseg_next_agree m1 m2 p l q a h1 h2 :
  lseg m1 p l q → lseg m2 p l q → a ∈ l →
  m1 !! a = Some h1 → m2 !! a = Some h2 → s_next h1 = s_next h2.
Proof.
  revert p. induction l as [|b l IH]; intros p; simpl.
  - intros _ _ Ha. by apply elem_of_nil in Ha.
  - intros (-> & _ & k1 & Hk1 & Hl1) (_ & _ & k2 & Hk2 & Hl2) Ha Hh1 Hh2.
    pose proof (lseg_first _ _ _ _ Hl1) as E1.
    pose proof (lseg_first _ _ _ _ Hl2) as E2.
    apply elem_of_cons in Ha as [->|Ha].
    + replace h1 with k1 by congruence. replace h2 with k2 by congruence.
      congruence.
    + apply (IH (s_next k1)); auto. by rewrite E1, <- E2.
Qed.

Lemma registry_ends s l :
  registry s l → head s = List.hd NULL l ∧ tail s = List.last l NULL.
Proof. intros [Hl Ht]. split; [by apply (lseg_first _ _ _ _ Hl) | done]. Qed.

(** X5: on a well-formed heap where [malloc(size)] has to extend the
    heap, releasing the new block right away undoes the call: [head],
    [tail], the break, the registry, the header of every registered block
    and all payload bytes are as before. *)
Theorem malloc_then_free_restores s l size :
  heap_inv s → registry s l → 0 < size → fits_intptr size →
  none_fits (hdrs s) size l →
  brk s + sizeof_header + size ≤ heap_hi s →
  ∃ p s1 s2,
    malloc size s = Some (p, s1) ∧ free p s1 = Some (tt, s2) ∧
    head s2 = head s ∧ tail s2 = tail s ∧ brk s2 = brk s ∧
    bytes s2 = bytes s ∧ registry s2 l ∧
    ∀ a, a ∈ l → hdrs s2 !! a = hdrs s !! a.
Proof.
  intros Hinv Hreg Hs Hfits Hnone Hroom.
  destruct (heap_inv_registry _ _ Hinv Hreg)
    as (Ht & Hinc & Hlo & Hle & Hhi & Hhalf).
  pose proof (tiled_below _ _ _ _ Ht) as Hbelow.
  set (b := brk s) in *.
  set (s1 := appended b size (b + sizeof_header + size) s).
  destruct (appended_wf s l size) as (Hinv1 & Hreg1 & Hnew); auto.
  fold b in Hinv1, Hreg1, Hnew. fold s1 in Hinv1, Hreg1, Hnew.
  assert (Em : malloc size s = Some (b + sizeof_header, s1)).
  { destruct (malloc_outcome s l size)
      as [(a & h & Hin & Hh & Hf & _)|[(_ & _ & E)|(_ & Hno & _)]]; auto.
    - rewrite (Hnone a h Hin Hh) in Hf. done.
    - fold b in Hno. lia. }
  assert (Eb : b + sizeof_header - sizeof_header = b) by lia.
  assert (Hin1 : b + sizeof_header - sizeof_header ∈ l ++ [b]).
  { rewrite Eb. apply elem_of_app. right. by apply list_elem_of_singleton. }
  destruct (heap_inv_registry _ _ Hinv1 Hreg1) as (Ht1 & Hinc1 & _).
  destruct (allocated_bounds _ _ _ Hinv1 Hreg1 Hin1) as (Hp & _).
  assert (Hh1 : hdrs s1 !! (b + sizeof_header - sizeof_header) =
                Some (Header size 0 NULL)) by (by rewrite Eb).
  pose proof (block_end_small s1 (l ++ [b]) (b + sizeof_header) _
                Hinv1 Hreg1 Hin1 Hh1) as Hsum.
  destruct (free_cases s1 (l ++ [b]) (b + sizeof_header) _
              Hreg1 Hinc1 Hp Hh1 Hsum)
    as [[Hne _]|(Htop & tmp & Hreg2 & E)].
  { exfalso. apply Hne. simpl. lia. }
  destruct (shrunk_top s1 (l ++ [b]) (b + sizeof_header) _ Hinv1 Hreg1 Hin1 Hh1 Htop)
    as (Etop & _).
  rewrite Etop, Eb in E. rewrite removelast_last in Hreg2.
  destruct (detached_fields tmp s1) as (_ & _ & _ & Ebytes).
  set (s2 := set_brk b (detached tmp s1)) in *.
  assert (Hreg2' : registry s2 l) by done.
  exists (b + sizeof_header), s1, s2.
  destruct (registry_ends _ _ Hreg) as [Eh Et].
  destruct (registry_ends _ _ Hreg2') as [Eh2 Et2].
  split_and!; try done; try congruence.
  intros a Ha.
  assert (Hab : a ≠ b).
  { rewrite Forall_forall in Hbelow. specialize (Hbelow _ Ha). simpl in Hbelow.
    lia. }
  destruct (tiled_bounds _ _ _ _ _ Ht Ha) as (h & Hh & _).
  destruct (appended_lookup b size (b + sizeof_header + size) s a h Hab Hh)
    as (h1 & Hh1' & Es1 & Ef1).
  destruct (detached_lookup tmp s1 a h1 Hh1') as (h2 & Hh2 & Es2 & Ef2).
  assert (En : s_next h2 = s_next h).
  { destruct Hreg as [Hl _]. destruct Hreg2' as [Hl2 _].
    rewrite Eh2, <- Eh in Hl2.
    by apply (lseg_next_agree _ _ _ _ _ a h2 h Hl2 Hl). }
  change (hdrs s2 !! a) with (hdrs (detached tmp s1) !! a).
  rewrite Hh2, Hh. f_equal. destruct h, h2. simpl in *. congruence.
Qed.

Lemma malloc_then_free_restores_witness :
  ∃ p s1 s2,
    malloc 500 scenario_state = Some (p, s1) ∧ free p s1 = Some (tt, s2) ∧
    head s2 = head scenario_state ∧ tail s2 = tail scenario_state ∧
    brk s2 = brk scenario_state ∧ bytes s2 = bytes scenario_state ∧
    registry s2 [4096; 4184] ∧
    ∀ a, a ∈ [4096; 4184] → hdrs s2 !! a = hdrs scenario_state !! a.
Proof.
  apply (malloc_then_free_restores scenario_state [4096; 4184] 500).
  - apply scenario_inv.
  - apply scenario_registry.
  - lia.
  - unfold fits_intptr, sizeof_header. lia.
  - intros a h Ha Hh.
    apply elem_of_cons in Ha as [->|Ha];
      [|apply list_elem_of_singleton in Ha; subst a];
      vm_compute in Hh; injection Hh as <-; reflexivity.
  - simpl. unfold sizeof_header. lia.
Defined.

(** X6: releasing a block that does not end at the break a second time
    changes nothing: the state after two calls of [free] is the state after
    one.  The end of the block is the sum that [free] compares with the
    break, pointer plus recorded size as the machine computes it. *)
Theorem free_twice_same s p h :
  p ≠ NULL → hdrs s !! (p - sizeof_header) = Some h →
  wrap (p + s_size h) ≠ brk s →
  ∃ s1, free p s = Some (tt, s1) ∧ free p s1 = Some (tt, s1).
Proof.
  intros Hp Hh Htop. eexists. split; [by apply free_mark|].
  rewrite (free_mark _ p (with_is_free 1 h)); auto.
  - simpl. by rewrite insert_insert_eq.
  - simpl. apply lookup_insert_eq.
Qed.

Lemma free_twice_same_witness :
  ∃ s1, free 4120 three_blocks = Some (tt, s1) ∧ free 4120 s1 = Some (tt, s1).
Proof.
  apply (free_twice_same three_blocks 4120 (Header 64 0 4184)).
  - unfold NULL. lia.
  - reflexivity.
  - vm_compute. lia.
Defined.

(** ** What the operations leave alone *)

Lemma malloc_sizes s l size r s' a h :
  heap_inv s → registry s l → size_t size → fits_intptr size →
  malloc size s = Some (r, s') →
  a ∈ l → hdrs s !! a = Some h →
  ∃ h', hdrs s' !! a = Some h' ∧ s_size h' = s_size h.
Proof.
  intros Hinv Hreg Hsz Hfits Hm Ha Hh.
  destruct (heap_inv_registry _ _ Hinv Hreg) as (Ht & _).
  destruct (malloc_cases s l size Hreg Hsz Hfits)
    as [E|[(a0 & h0 & _ & _ & Hh0 & _ & _ & E)|(_ & _ & _ & E)]];
    rewrite Hm in E; injection E as -> ->.
  - eauto.
  - simpl. destruct (decide (a0 = a)) as [->|Hne].
    + rewrite lookup_insert_eq. replace h0 with h by congruence. eauto.
    + rewrite lookup_insert_ne by done. eauto.
  - pose proof (tiled_below _ _ _ _ Ht) as Hbelow.
    rewrite Forall_forall in Hbelow. specialize (Hbelow _ Ha). simpl in Hbelow.
    destruct (appended_lookup (brk s) size (grown size s) s a h)
      as (h' & ? & ? & _); [lia | done | eauto].
Qed.

Lemma free_sizes s l p hp s' a h :
  registry s l → increasing l → p ≠ NULL →
  hdrs s !! (p - sizeof_header) = Some hp →
  0 ≤ p + s_size hp < 2 ^ 64 →
  free p s = Some (tt, s') → hdrs s !! a = Some h →
  ∃ h', hdrs s' !! a = Some h' ∧ s_size h' = s_size h ∧
        (a ≠ p - sizeof_header → s_is_free h' = s_is_free h).
Proof.
  intros Hreg Hinc Hp Hhp Hsum Hf Hh.
  destruct (free_cases s l p hp Hreg Hinc Hp Hhp Hsum)
    as [[_ E]|(_ & tmp & _ & E)]; rewrite Hf in E; injection E as ->.
  - simpl. destruct (decide (p - sizeof_header = a)) as [E|Hne].
    + rewrite E, lookup_insert_eq. rewrite E in Hhp.
      replace hp with h by congruence. eexists. split_and!; try done.
    + rewrite lookup_insert_ne by done. eauto.
  - destruct (detached_lookup tmp s a h Hh) as (h' & ? & ? & ?).
    exists h'. simpl. auto.
Qed.

(** X7: on a well-formed heap every operation, given pointers that the
    allocator handed out and a size that with the header is a positive
    [intptr_t], returns and leaves the recorded size of every registered
    block as it was: no block is ever split, merged or resized, and the
    size field of a block that leaves the registry is not rewritten
    either. *)
Theorem sizes_never_change s l o :
  heap_inv s → registry s l → op_ok s l o → op_fits o →
  ∃ r s',
    run o s = Some (r, s') ∧
    ∀ a h, a ∈ l → hdrs s !! a = Some h →
           ∃ h', hdrs s' !! a = Some h' ∧ s_size h' = s_size h.
Proof.
  intros Hinv Hreg Hok Hfits.
  destruct (heap_inv_registry _ _ Hinv Hreg) as (Ht & Hinc & _).
  destruct o as [size|p|num nsize|p size]; simpl in *.
  - destruct (malloc_step s l size Hinv Hreg Hok Hfits)
      as (r & s' & _ & E & _).
    exists r, s'. split; [done|]. intros a h. by apply (malloc_sizes s l size r).
  - destruct Hok as [->|[Hin (hp & Hhp & _)]].
    { exists NULL, s. split; [done|]. eauto. }
    destruct (allocated_bounds _ _ _ Hinv Hreg Hin) as (Hp & _).
    pose proof (block_end_small s l p hp Hinv Hreg Hin Hhp) as Hsum.
    destruct (free_reg s l p hp) as (s' & _ & E & _); auto.
    exists NULL, s'. unfold bind. rewrite E. split; [done|]. intros a h Ha Hh.
    destruct (free_sizes s l p hp s' a h) as (h' & ? & ? & _); eauto.
  - destruct Hok as [Hn Hs]. unfold size_t in *.
    destruct (decide (num = 0 ∨ nsize = 0)) as [Hz|Hz].
    { rewrite calloc_zero by done. exists NULL, s. split; [done|]. eauto. }
    destruct (Z.lt_ge_cases (num * nsize) (2 ^ 64)) as [Ho|Ho].
    + rewrite calloc_malloc by lia.
      assert (Hsz : size_t (num * nsize)) by (unfold size_t; nia).
      destruct (malloc_step s l (num * nsize) Hinv Hreg Hsz (Hfits Ho))
        as (r & s' & _ & E & _).
      rewrite E. destruct (r =? NULL); eexists _, _; (split; [done|]);
        intros a h; simpl;
        by apply (malloc_sizes s l (num * nsize) r s' a h Hinv Hreg Hsz
                    (Hfits Ho)).
    + rewrite calloc_overflow by lia. exists NULL, s. split; [done|]. eauto.
  - destruct Hok as [Hsz Hp].
    destruct (decide (p = NULL ∨ size = 0)) as [Hz|Hz].
    { rewrite realloc_malloc by done.
      destruct (malloc_step s l size Hinv Hreg Hsz Hfits)
        as (r & s' & _ & E & _).
      exists r, s'. split; [done|]. intros a h.
      by apply (malloc_sizes s l size r). }
    destruct Hp as [|Halloc]; [tauto|].
    pose proof Halloc as [Hin (hp & Hhp & Hused)].
    destruct (allocated_bounds _ _ _ Hinv Hreg Hin) as (Hp & _).
    destruct (Z.le_gt_cases size (s_size hp)) as [Hle|Hgt].
    { rewrite (realloc_fits p size s hp) by tauto.
      exists p, s. split; [done|]. eauto. }
    destruct (realloc_grow_step s l p hp size)
      as (r & s1 & l1 & E & Hpost & Hnull & Hmove); auto.
    destruct (decide (r = NULL)) as [Hr|Hr].
    { rewrite (Hnull Hr). exists NULL, s. split; [done|]. eauto. }
    destruct (Hmove Hr) as (s' & l' & Hfree & _ & -> & _).
    exists r, s'. split; [done|]. intros a h Ha Hh.
    destruct (malloc_sizes s l size r s1 a h) as (h1 & Hh1 & Es1); auto.
    destruct Hpost
      as (Hreg1 & Hinc1 & Hl1 & _ & _ & _ & _ & _ & Hkeep & _ & Hinv1).
    specialize (Hinv1 Hfits).
    destruct (Hkeep _ _ Hin Hhp Hused) as (_ & hp1 & Hhp1 & _).
    assert (Hin1 : p - sizeof_header ∈ l1).
    { destruct Hl1 as [->| ->]; [done|]. apply elem_of_app. by left. }
    pose proof (block_end_small s1 l1 p hp1 Hinv1 Hreg1 Hin1 Hhp1) as Hsum.
    destruct (free_sizes (set_bytes (memcpy r p (s_size hp) (bytes s1)) s1)
                l1 p hp1 s' a h1) as (h' & ? & ? & _); auto.
    exists h'. split; [done | congruence].
Qed.

Lemma sizes_never_change_witness :
  ∃ r s',
    run (Realloc 4208 200) scenario_state = Some (r, s') ∧
    ∀ a h, a ∈ [4096; 4184] → hdrs scenario_state !! a = Some h →
           ∃ h', hdrs s' !! a = Some h' ∧ s_size h' = s_size h.
Proof.
  apply (sizes_never_change scenario_state [4096; 4184] (Realloc 4208 200)).
  - apply scenario_inv.
  - apply scenario_registry.
  - simpl. split; [unfold size_t; lia|]. right.
    split; [vm_compute; repeat constructor|].
    exists (Header 128 0 NULL). split; reflexivity.
  - simpl. unfold fits_intptr, sizeof_header. lia.
Defined.

Lemma survives_refl s l q : allocated s l q → survives s s l q.
Proof. intros [Hin (h & Hh & Hf)]. exists h, h. split_and!; done. Qed.

Lemma survives_trans s s1 s2 l1 l2 q :
  survives s s1 l1 q → survives s1 s2 l2 q → survives s s2 l2 q.
Proof.
  intros (h & h1 & Hh & Hh1 & _ & Es & _ & Hb)
         (h1' & h2 & Hh1' & Hh2 & Hin & Es' & Hf & Hb').
  replace h1' with h1 in * by congruence.
  exists h, h2. split_and!; try done; [congruence|].
  intros i Hi. rewrite Hb' by lia. by apply Hb.
Qed.

Lemma survives_allocated s s' l' q : survives s s' l' q → allocated s' l' q.
Proof. intros (h & h' & _ & Hh' & Hin & _ & Hf & _). split; eauto. Qed.

Lemma malloc_survives s l size r s' q :
  heap_inv s → registry s l → size_t size → fits_intptr size →
  allocated s l q → malloc size s = Some (r, s') →
  ∃ l', registry s' l' ∧ survives s s' l' q ∧ r ≠ q.
Proof.
  intros Hinv Hreg Hsz Hfits [Hin (h & Hh & Hused)] Hm.
  destruct (malloc_step s l size Hinv Hreg Hsz Hfits)
    as (r' & s'' & l' & E & Hpost).
  rewrite Hm in E. injection E as <- <-.
  destruct Hpost as (Hreg' & _ & Hl' & _ & _ & Hb & _ & _ & Hkeep & _).
  destruct (Hkeep _ _ Hin Hh Hused) as (Hne & h' & Hh' & Es & Ef).
  exists l'. split; [done|]. split; [|intros ->; done].
  exists h, h'. split_and!; try done.
  - destruct Hl' as [->| ->]; [done|]. apply elem_of_app. by left.
  - intros i _. by rewrite Hb.
Qed.

Lemma free_survives s l p s' q :
  heap_inv s → registry s l → p - sizeof_header ∈ l → p ≠ q →
  allocated s l q → free p s = Some (tt, s') →
  ∃ l', registry s' l' ∧ survives s s' l' q.
Proof.
  intros Hinv Hreg Hin Hne [Hq (h & Hh & Hused)] Hf.
  destruct (heap_inv_registry _ _ Hinv Hreg) as (Ht & Hinc & _).
  destruct (allocated_bounds _ _ _ Hinv Hreg Hin) as (Hp & hp & Hhp & _).
  assert (Hne' : p - sizeof_header ≠ q - sizeof_header) by lia.
  pose proof (block_end_small s l p hp Hinv Hreg Hin Hhp) as Hsum.
  destruct (free_cases s l p hp Hreg Hinc Hp Hhp Hsum)
    as [[_ E]|(Htop & tmp & Hreg' & E)]; rewrite Hf in E; injection E as ->.
  - exists l. split; [by apply registry_mark|].
    exists h, h. simpl. rewrite lookup_insert_ne by done. split_and!; done.
  - destruct (shrunk_top s l p hp) as (_ & l0 & -> & _); auto.
    rewrite removelast_last in Hreg'. exists l0. split; [done|].
    destruct (detached_lookup tmp s _ h Hh) as (h' & Hh' & Es & Ef).
    destruct (detached_fields tmp s) as (_ & _ & _ & Eb).
    exists h, h'. simpl. split_and!; try done; [|congruence|].
    + apply elem_of_app in Hq as [|Hq]; [done|].
      apply list_elem_of_singleton in Hq. done.
    + intros i _. by rewrite Eb.
Qed.

(** X8: on a well-formed heap, an operation whose request fits and that
    is not asked to release or move the block of [q] returns and leaves
    that block as it was: still registered and in use, with the same size
    and the same payload bytes.  [calloc] zeroes and [realloc] copies
    outside of it. *)
Theorem other_blocks_survive s l o q :
  heap_inv s → registry s l → op_ok s l o → op_fits o →
  allocated s l q → leaves_alone o q →
  ∃ r s' l', run o s = Some (r, s') ∧ registry s' l' ∧ survives s s' l' q.
Proof.
  intros Hinv Hreg Hok Hfit Hq Hleave.
  assert (Hmalloc : ∀ size, size_t size → fits_intptr size →
            ∃ r s' l', malloc size s = Some (r, s') ∧ registry s' l' ∧
                       survives s s' l' q).
  { intros size Hsz Hfits.
    destruct (malloc_step s l size Hinv Hreg Hsz Hfits)
      as (r & s' & _ & E & _).
    destruct (malloc_survives s l size r s' q) as (l' & ? & ? & _); auto.
    exists r, s', l'. done. }
  assert (Hsame : ∃ r s' l', Some (NULL, s) = Some (r, s') ∧ registry s' l' ∧
                             survives s s' l' q).
  { exists NULL, s, l. split_and!; try done. by apply survives_refl. }
  destruct o as [size|p|num nsize|p size]; simpl in *.
  - by apply Hmalloc.
  - destruct Hok as [->|[Hin _]]; [done|].
    destruct (free_step s l p Hinv Hreg) as (s' & _ & E & _); [by right|].
    destruct (free_survives s l p s' q) as (l' & ? & ?); auto.
    exists NULL, s', l'. unfold bind. by rewrite E.
  - destruct Hok as [Hn Hs]. unfold size_t in *.
    destruct (decide (num = 0 ∨ nsize = 0)) as [Hz|Hz].
    { by rewrite calloc_zero. }
    destruct (Z.lt_ge_cases (num * nsize) (2 ^ 64)) as [Ho|Ho];
      [|by rewrite calloc_overflow by lia].
    rewrite calloc_malloc by lia.
    assert (Hsz : size_t (num * nsize)) by (unfold size_t; nia).
    destruct (malloc_step s l (num * nsize) Hinv Hreg Hsz (Hfit Ho))
      as (r & s' & l' & E & Hpost).
    destruct (malloc_survives s l _ r s' q Hinv Hreg Hsz (Hfit Ho) Hq E)
      as (l'' & Hreg' & Hsur & Hrq).
    rewrite E. destruct (Z.eqb_spec r NULL) as [|Hr].
    { exists NULL, s', l''. done. }
    eexists r, _, l''. split; [done|]. split; [done|].
    destruct Hpost as (Hreg1 & _ & _ & _ & Hnew & _ & _ & _ & _ & _ & Hinv').
    specialize (Hinv' (Hfit Ho)).
    rewrite (registry_functional _ _ _ Hreg' Hreg1) in *.
    destruct (Hnew Hr) as (Hrin & hr & Hhr & Hle & _).
    destruct Hsur as (h & h' & Hh & Hh' & Hin' & Es & Ef & Hb).
    exists h, h'. simpl. split_and!; try done.
    intros i Hi. rewrite <- Hb by done. apply memset_other.
    destruct (heap_inv_registry _ _ Hinv' Hreg1) as (Ht' & _).
    destruct (tiled_bounds _ _ _ _ _ Ht' Hrin) as (hr' & Hhr' & _ & _ & Hup).
    replace hr' with hr in * by congruence.
    destruct (tiled_disjoint _ _ _ _ _ _ hr h' Ht' Hrin Hin') as [H|H]; auto;
      unfold sizeof_header in *; lia.
  - destruct Hok as [Hsz Hp].
    destruct (decide (p = NULL ∨ size = 0)) as [Hz|Hz].
    { rewrite realloc_malloc by done. by apply Hmalloc. }
    destruct Hp as [|Halloc]; [tauto|].
    pose proof Halloc as [Hin (hp & Hhp & Hused)].
    destruct (allocated_bounds _ _ _ Hinv Hreg Hin) as (Hp & _).
    destruct (Z.le_gt_cases size (s_size hp)) as [Hle|Hgt].
    { rewrite (realloc_fits p size s hp) by tauto.
      exists p, s, l. split_and!; try done. by apply survives_refl. }
    destruct (realloc_grow_step s l p hp size)
      as (r & s1 & l1 & E & Hpost & Hnull & Hmove); auto.
    destruct (decide (r = NULL)) as [Hr|Hr]; [by rewrite (Hnull Hr)|].
    destruct (Hmove Hr) as (s' & l' & Hfree & _ & -> & _).
    destruct (malloc_survives s l _ r s1 q Hinv Hreg Hsz Hfit Hq E)
      as (l1' & Hreg1' & Hsur & Hrq).
    destruct Hpost
      as (Hreg1 & _ & Hl1 & _ & Hnew & _ & _ & _ & Hkeep & _ & Hinv1).
    specialize (Hinv1 Hfit).
    rewrite (registry_functional _ _ _ Hreg1' Hreg1) in *.
    destruct (Hnew Hr) as (Hrin & hr & Hhr & Hle & _).
    destruct (Hkeep _ _ Hin Hhp Hused) as (_ & hp1 & Hhp1 & _).
    assert (Hpin : p - sizeof_header ∈ l1).
    { destruct Hl1 as [->| ->]; [done|]. apply elem_of_app. by left. }
    set (s2 := set_bytes (memcpy r p (s_size hp) (bytes s1)) s1) in *.
    assert (Hsur2 : survives s1 s2 l1 q).
    { destruct Hsur as (h & h' & Hh & Hh' & Hin' & Es & Ef & Hb).
      exists h', h'. simpl. split_and!; try done.
      intros i Hi. apply memcpy_other.
      destruct (heap_inv_registry _ _ Hinv1 Hreg1) as (Ht' & _).
      destruct (tiled_bounds _ _ _ _ _ Ht' Hrin) as (hr' & Hhr' & _ & _ & Hup).
      replace hr' with hr in * by congruence.
      destruct (tiled_disjoint _ _ _ _ _ _ hr h' Ht' Hrin Hin') as [H|H]; auto;
        unfold sizeof_header in *; lia. }
    destruct (free_survives s2 l1 p s' q) as (l2 & Hreg2 & Hsur3); auto.
    { by apply survives_allocated in Hsur2. }
    exists r, s', l2. split_and!; try done.
    eapply survives_trans; [exact Hsur|]. eapply survives_trans; eauto.
Qed.

Lemma other_blocks_survive_witness :
  ∃ r s' l',
    run (Calloc 4 8) scenario_state = Some (r, s') ∧ registry s' l' ∧
    survives scenario_state s' l' 4208.
Proof.
  apply (other_blocks_survive scenario_state [4096; 4184] (Calloc 4 8) 4208).
  - apply scenario_inv.
  - apply scenario_registry.
  - simpl. unfold size_t. lia.
  - simpl. unfold fits_intptr, sizeof_header. lia.
  - split; [vm_compute; repeat constructor|].
    exists (Header 128 0 NULL). split; reflexivity.
  - exact I.
Defined.

(** ** Every reachable state *)

Lemma run_limits s l o r s' :
  heap_inv s → registry s l → op_ok s l o → op_fits o →
  run o s = Some (r, s') →
  heap_lo s' = heap_lo s ∧ heap_hi s' = heap_hi s.
Proof.
  intros Hinv Hreg Hok Hfits Hrun.
  assert (Hmalloc : ∀ size r s', size_t size → fits_intptr size →
            malloc size s = Some (r, s') →
            heap_lo s' = heap_lo s ∧ heap_hi s' = heap_hi s).
  { intros size r0 s0 Hsz Hfit0 Hm.
    destruct (malloc_step s l size Hinv Hreg Hsz Hfit0)
      as (r1 & s1 & l1 & E & Hpost).
    rewrite Hm in E. injection E as <- <-.
    destruct Hpost as (_ & _ & _ & _ & _ & _ & ? & ? & _). done. }
  destruct o as [size|p|num nsize|p size]; simpl in *.
  - by eapply Hmalloc.
  - destruct (free_step s l p Hinv Hreg) as (s1 & l1 & E & Hpost & _).
    { destruct Hok as [|[? _]]; auto. }
    revert Hrun. unfold bind. rewrite E. intros [= _ <-].
    destruct Hpost as (_ & _ & _ & _ & ? & ?). done.
  - destruct Hok as [Hn Hs]. unfold size_t in *.
    destruct (decide (num = 0 ∨ nsize = 0)) as [Hz|Hz].
    { rewrite calloc_zero in Hrun by done. by injection Hrun as _ <-. }
    destruct (Z.lt_ge_cases (num * nsize) (2 ^ 64)) as [Ho|Ho].
    + rewrite calloc_malloc in Hrun by lia.
      destruct (malloc (num * nsize) s) as [[r1 s1]|] eqn:E; [|done].
      destruct (Hmalloc (num * nsize) r1 s1) as [? ?];
        [unfold size_t; nia | auto | done |].
      destruct (r1 =? NULL); injection Hrun as _ <-; done.
    + rewrite calloc_overflow in Hrun by lia. by injection Hrun as _ <-.
  - destruct Hok as [Hsz Hp].
    destruct (decide (p = NULL ∨ size = 0)) as [Hz|Hz].
    { rewrite realloc_malloc in Hrun by done. by eapply Hmalloc. }
    destruct Hp as [|Halloc]; [tauto|].
    pose proof Halloc as [Hin (hp & Hhp & Hused)].
    destruct (allocated_bounds _ _ _ Hinv Hreg Hin) as (Hp & _).
    destruct (Z.le_gt_cases size (s_size hp)) as [Hle|Hgt].
    { rewrite (realloc_fits p size s hp) in Hrun by tauto.
      by injection Hrun as _ <-. }
    destruct (realloc_grow_step s l p hp size)
      as (r1 & s1 & l1 & E & Hpost & Hnull & Hmove); auto.
    destruct (Hmalloc size r1 s1 Hsz Hfits E) as [E1 E2].
    destruct (decide (r1 = NULL)) as [Hr|Hr].
    { rewrite (Hnull Hr) in Hrun. by injection Hrun as _ <-. }
    destruct (Hmove Hr) as (s2 & l2 & _ & Hpost' & E' & _).
    rewrite E' in Hrun. injection Hrun as _ <-.
    destruct Hpost' as (_ & _ & _ & _ & E3 & E4). simpl in *. split; congruence.
Qed.

Lemma reachable_limits lo hi s :
  0 < lo → lo ≤ hi → hi ≤ 2 ^ 63 → reachable lo hi s →
  heap_lo s = lo ∧ heap_hi s = hi.
Proof.
  intros Hlo Hle Hhi. induction 1 as [|s l o r s' Hs IH Hreg Hok Hfit Hrun].
  - done.
  - pose proof (reachable_heap_inv lo hi s Hlo Hle Hhi Hs) as Hinv.
    destruct (run_limits s l o r s' Hinv Hreg Hok Hfit Hrun) as [E1 E2].
    destruct IH. split; congruence.
Qed.

Lemma tiled_footprint m pos l top :
  tiled m pos l top → top = pos + footprint m l.
Proof.
  revert pos. induction l as [|a l IH]; intros pos; simpl; [lia|].
  intros (-> & h & Hh & _ & Hl). rewrite Hh. apply IH in Hl. lia.
Qed.

Lemma two_blocks_reachable :
  reachable 4096 8192
    (State 4096 4184
           (<[4096 := Header 64 0 4184]> (<[4184 := Header 128 0 NULL]> ∅))
           ∅ 4336 4096 8192).
Proof.
  apply (reach_step 4096 8192 one_block [4096] (Malloc 128) 4208).
  - apply (reach_step 4096 8192 (init_state 4096 8192) [] (Malloc 64) 4120).
    + apply reach_init.
    + done.
    + simpl. unfold size_t. lia.
    + simpl. unfold fits_intptr, sizeof_header. lia.
    + apply one_block_reached.
  - split; [|done]. simpl. split_and!; try done. eexists.
    split; [reflexivity | done].
  - simpl. unfold size_t. lia.
  - simpl. unfold fits_intptr, sizeof_header. lia.
  - vm_compute. reflexivity.
Qed.

Lemma scenario_reachable : reachable 4096 8192 scenario_state.
Proof.
  eapply (reach_step 4096 8192 _ [4096; 4184] (Free 4120) NULL).
  - apply two_blocks_reachable.
  - split; [|done]. simpl. split_and!; try done.
    eexists. split; [reflexivity|]. simpl. split_and!; try done.
    eexists. split; [reflexivity | done].
  - simpl. right. split; [vm_compute; repeat constructor|].
    exists (Header 64 0 4184). split; reflexivity.
  - exact I.
  - vm_compute. reflexivity.
Qed.

(** X9: in every state that the operations reach from the start of the
    process (requests that fit, pointers that the allocator handed out),
    the registry is a list that ends in [NULL], in increasing address
    order, and the break is the start of the heap plus the sizes of all
    registered blocks and their headers: the heap has no gap, and memory
    goes back to the system only by shortening that list. *)
Theorem reachable_heap_accounted lo hi s :
  0 < lo → lo ≤ hi → hi ≤ 2 ^ 63 → reachable lo hi s →
  ∃ l, registry s l ∧ increasing l ∧
       brk s = lo + footprint (hdrs s) l ∧ lo ≤ brk s ≤ hi.
Proof.
  intros Hlo Hle Hhi Hs.
  pose proof (reachable_heap_inv lo hi s Hlo Hle Hhi Hs) as Hinv.
  destruct (reachable_limits lo hi s Hlo Hle Hhi Hs) as [E1 E2].
  pose proof Hinv as (_ & _ & _ & l & Hreg & _).
  destruct (heap_inv_registry _ _ Hinv Hreg) as (Ht & Hinc & _ & ? & ? & _).
  exists l. split_and!; try done; try lia.
  rewrite <- E1. by apply tiled_footprint.
Qed.

Lemma reachable_heap_accounted_witness :
  ∃ l, registry scenario_state l ∧ increasing l ∧
       brk scenario_state = 4096 + footprint (hdrs scenario_state) l ∧
       4096 ≤ brk scenario_state ≤ 8192.
Proof.
  apply (reachable_heap_accounted 4096 8192 scenario_state).
  - lia.
  - lia.
  - lia.
  - apply scenario_reachable.
Defined.

(** X10: in every such state two different registered blocks do not
    overlap, neither payload with payload nor payload with header, and
    each lies between the start of the heap and the break. *)
Theorem reachable_blocks_apart lo hi s l p q hp hq :
  0 < lo → lo ≤ hi → hi ≤ 2 ^ 63 → reachable lo hi s →
  registry s l → p - sizeof_header ∈ l → q - sizeof_header ∈ l → p ≠ q →
  hdrs s !! (p - sizeof_header) = Some hp →
  hdrs s !! (q - sizeof_header) = Some hq →
  lo ≤ p - sizeof_header ∧ p + s_size hp ≤ brk s ∧
  (p + s_size hp ≤ q - sizeof_header ∨ q + s_size hq ≤ p - sizeof_header).
Proof.
  intros Hlo Hle Hhi Hs Hreg Hp Hq Hne Hhp Hhq.
  pose proof (reachable_heap_inv lo hi s Hlo Hle Hhi Hs) as Hinv.
  destruct (reachable_limits lo hi s Hlo Hle Hhi Hs) as [E1 E2].
  destruct (heap_inv_registry _ _ Hinv Hreg) as (Ht & _).
  destruct (tiled_bounds _ _ _ _ _ Ht Hp) as (h & Hh & _ & Hlow & Hup).
  replace h with hp in * by congruence.
  split_and!; [lia | unfold sizeof_header in *; lia |].
  destruct (tiled_disjoint _ _ _ _ _ _ hp hq Ht Hp Hq) as [H|H]; auto;
    unfold sizeof_header in *; lia.
Qed.

Lemma reachable_blocks_apart_witness :
  4096 ≤ 4120 - sizeof_header ∧ 4120 + 64 ≤ brk scenario_state ∧
  (4120 + 64 ≤ 4208 - sizeof_header ∨ 4208 + 128 ≤ 4120 - sizeof_header).
Proof.
  apply (reachable_blocks_apart 4096 8192 scenario_state [4096; 4184]
           4120 4208 (Header 64 1 4184) (Header 128 0 NULL)).
  - lia.
  - lia.
  - lia.
  - apply scenario_reachable.
  - apply scenario_registry.
  - vm_compute. repeat constructor.
  - vm_compute. repeat constructor.
  - lia.
  - reflexivity.
  - reflexivity.
Defined.

(** ** The listing *)

Lemma print_mem_list_loop_step fuel m curr :
  print_mem_list_loop (S fuel) m curr =
    if curr =? NULL then Some []
    else match m !! curr with
         | None => None
         | Some h =>
             match print_mem_list_loop fuel m (s_next h) with
             | Some out =>
                 Some (Line curr (s_size h) (s_is_free h) (s_next h) :: out)
             | None => None
             end
         end.
Proof. reflexivity. Qed.

Lemma lines_of_cons m a l h :
  m !! a = Some h →
  lines_of m (a :: l) =
    Line a (s_size h) (s_is_free h) (s_next h) :: lines_of m l.
Proof. intros Hh. unfold lines_of. simpl. by rewrite Hh. Qed.

Lemma print_mem_list_loop_spec m l :
  ∀ fuel p,
    lseg m p l NULL → (length l < fuel)%nat →
    print_mem_list_loop fuel m p = Some (lines_of m l) ∧
    l_addr <$> lines_of m l = l.
Proof.
  induction l as [|a l IH]; intros [|fuel] p Hl Hf; simpl in Hf; try lia;
    rewrite print_mem_list_loop_step.
  - simpl in Hl. subst p. done.
  - destruct Hl as (-> & Ha & h & Hh & Hl).
    destruct (Z.eqb_spec a NULL) as [|_]; [done|].
    rewrite Hh. destruct (IH fuel (s_next h)) as [-> E]; [done | lia |].
    rewrite (lines_of_cons m a l h Hh). split; [done|].
    rewrite fmap_cons. simpl. by rewrite E.
Qed.

Lemma printf_buffer_step s l request :
  registry s l → request_ok s request →
  ∃ s' l',
    printf_buffer request s = Some (tt, s') ∧ registry s' l' ∧
    (request = None → s' = s) ∧
    (head s ≠ NULL → head s' = head s) ∧
    (l' = l ∨ l' = l ++ [brk s]).
Proof.
  intros Hreg Hok. destruct request as [n|]; simpl in *.
  2: { exists s, l. split_and!; auto. }
  destruct Hok as (Hinv & Hsz & Hfits). unfold bind.
  destruct (decide (n = 0)) as [->|Hn].
  { exists s, l. split_and!; auto. }
  assert (Hpos : 0 < n) by (unfold size_t in Hsz; lia).
  destruct (malloc_outcome s l n Hinv Hreg Hpos Hfits)
    as [(a & h & _ & Hh & _ & _ & E)|[(_ & Hroom & E)|(_ & _ & E)]];
    rewrite E; simpl.
  - eexists _, l. split_and!; auto; try done. by apply registry_mark.
  - destruct (appended_wf s l n) as (_ & Hreg' & _); auto.
    eexists _, (l ++ [brk s]). split_and!; auto; try done.
    simpl. intros Hhd. by destruct (Z.eqb_spec (head s) NULL).
  - exists s, l. split_and!; auto; done.
Qed.



(** ** The arguments of [calloc] *)

(** X12: [calloc] does not depend on the order of its two arguments: the
    division test, written with [num] as divisor, accepts and rejects the
    same pairs either way, so both calls return the same result and leave
    the same state. *)
Theorem calloc_arguments_swap num nsize s :
  size_t num → size_t nsize → calloc num nsize s = calloc nsize num s.
Proof.
  unfold size_t. intros Hn Hs.
  destruct (decide (num = 0 ∨ nsize = 0)) as [Hz|Hz].
  { rewrite !calloc_zero; [done | tauto | done]. }
  destruct (Z.lt_ge_cases (num * nsize) (2 ^ 64)) as [Ho|Ho].
  - rewrite !calloc_malloc by lia. by rewrite (Z.mul_comm nsize num).
  - by rewrite !calloc_overflow by lia.
Qed.

Lemma calloc_arguments_swap_witness :
  calloc 3 (2 ^ 63) scenario_state = calloc (2 ^ 63) 3 scenario_state.
Proof.
  apply (calloc_arguments_swap 3 (2 ^ 63) scenario_state).
  - unfold size_t. lia.
  - unfold size_t. lia.
Defined.

(** ** The region that [malloc] returns *)

Lemma malloc_region_witness :
  heap_inv (set_hdrs (<[4096 := Header 64 0 4184]> (hdrs scenario_state))
                     scenario_state) ∧
  ∃ l' h,
    registry (set_hdrs (<[4096 := Header 64 0 4184]> (hdrs scenario_state))
                       scenario_state) l' ∧
    4120 - sizeof_header ∈ l' ∧
    hdrs (set_hdrs (<[4096 := Header 64 0 4184]> (hdrs scenario_state))
                   scenario_state) !! (4120 - sizeof_header) = Some h ∧
    s_is_free h = 0 ∧ 50 ≤ s_size h ∧
    heap_lo scenario_state ≤ 4120 - sizeof_header ∧
    4120 + 50 ≤ brk scenario_state ∧
    ∀ q hq, q - sizeof_header ∈ l' → q ≠ 4120 →
            hdrs (set_hdrs (<[4096 := Header 64 0 4184]> (hdrs scenario_state))
                           scenario_state) !! (q - sizeof_header) = Some hq →
            4120 + 50 ≤ q - sizeof_header ∨ q + s_size hq ≤ 4120 - sizeof_header.
Proof.
  apply (malloc_region scenario_state [4096; 4184] 50 4120
           (set_hdrs (<[4096 := Header 64 0 4184]> (hdrs scenario_state))
                     scenario_state)).
  - apply scenario_inv.
  - apply scenario_registry.
  - unfold size_t. lia.
  - unfold fits_intptr, sizeof_header. lia.
  - vm_compute. reflexivity.
  - unfold NULL. lia.
Defined.
